(** * Neurones: the delegation and execution core

    A shallow embedding of the adapters ([adapters/base.py], [claude.py],
    [codex.py], [gemini.py]), of the result model ([models/result.py]), of
    the process executor ([core/executor.py]) and of the orchestrator
    ([core/orchestrator.py]), and the properties their specification
    states about them.

    Conventions of the embedding.
    - A Python [str] is a list of Unicode code points ([pystr]); a [bytes]
      value is a list of [Byte.byte].  Whitespace, line boundaries and the
      case folding of [re.IGNORECASE] are those of Python on all code
      points; [str.lower] and [str.upper] act on the ASCII letters (and on
      the two other characters that lower to an ASCII letter), and [\d] is
      the ten ASCII digits.
    - A Python [int] is a [Z]; a Python [float] is an exact rational [Q]
      (rounding, infinities and NaN are not represented).
    - A Python [dict] whose iteration order is observed is an association
      list, in insertion order.
    - The operating system, the clock and the event loop are an explicit
      environment and an explicit world state; the coroutines gathered by
      [run_parallel] run one after the other.
    - The JSON libraries the orchestrator calls are a function it is
      given. *)

From Stdlib Require Import ZArith NArith QArith Qminmax Bool List String Ascii.
From Stdlib Require Import DecimalString Lia.
Import ListNotations.

Set Implicit Arguments.
Local Open Scope bool_scope.

(* ================================================================== *)
(** * Python text                                                      *)
(* ================================================================== *)

(** A character is its code point. *)
Definition pychar := N.
Definition pystr := list pychar.

(** A literal of the source. *)
Definition lit (s : string) : pystr :=
  List.map N_of_ascii (list_ascii_of_string s).

Definition pystr_eqb (a b : pystr) : bool :=
  if list_eq_dec N.eq_dec a b then true else false.

(** [str(n)] for an int. *)
Definition str_of_int (n : Z) : pystr :=
  lit (NilZero.string_of_int (Z.to_int n)).

Local Open Scope N_scope.

(** [str.lower()], character by character.  ASCII capitals go to small
    letters; the two non-ASCII characters whose lowercase contains an ASCII
    letter are mapped as Python maps them (KELVIN SIGN to [k], capital I
    with dot above to [i] followed by a combining dot).  Every other
    character is left as it is: its lowercase is not ASCII either, so no
    membership test for an ASCII needle can tell the difference. *)
Definition lower_char (c : pychar) : pystr :=
  if (65 <=? c) && (c <=? 90) then [c + 32]
  else if c =? 8490 then [107]
  else if c =? 304 then [105; 775]
  else [c].

Definition lower (s : pystr) : pystr := flat_map lower_char s.

(** [str.upper()] on ASCII letters (agent names are ASCII identifiers). *)
Definition upper_char (c : pychar) : pychar :=
  if (97 <=? c) && (c <=? 122) then c - 32 else c.

Definition upper (s : pystr) : pystr := List.map upper_char s.

(** [str.isspace()] of one character: the characters [str.strip()] removes
    and the regular expression class [\s] accepts. *)
Definition isspace (c : pychar) : bool :=
  ((9 <=? c) && (c <=? 13)) || ((28 <=? c) && (c <=? 32))
  || (c =? 133) || (c =? 160) || (c =? 5760)
  || ((8192 <=? c) && (c <=? 8202))
  || (c =? 8232) || (c =? 8233) || (c =? 8239) || (c =? 8287)
  || (c =? 12288).

(** [c in "0123456789"]. *)
Definition isdigit (c : pychar) : bool := (48 <=? c) && (c <=? 57).

Local Close Scope N_scope.

(** [s.startswith(p)]. *)
Fixpoint startswith (p s : pystr) : bool :=
  match p, s with
  | [], _ => true
  | _ :: _, [] => false
  | a :: p', b :: s' => N.eqb a b && startswith p' s'
  end.

(** [needle in hay]. *)
Fixpoint contains (needle hay : pystr) : bool :=
  startswith needle hay
  || match hay with
     | [] => false
     | _ :: t => contains needle t
     end.

(** What [needle in hay] means. *)
Definition substring (needle hay : pystr) : Prop :=
  exists pre suf, hay = pre ++ needle ++ suf.

(** [str.lstrip()], [str.rstrip()] and [str.strip()] without argument. *)
Fixpoint lstrip (s : pystr) : pystr :=
  match s with
  | c :: t => if isspace c then lstrip t else s
  | [] => []
  end.

Definition rstrip (s : pystr) : pystr := rev (lstrip (rev s)).

Definition strip (s : pystr) : pystr := rstrip (lstrip s).

(** [sep.join(parts)]. *)
Fixpoint join (sep : pystr) (parts : list pystr) : pystr :=
  match parts with
  | [] => []
  | [p] => p
  | p :: rest => p ++ sep ++ join sep rest
  end.

(* ================================================================== *)
(** * models/result.py                                                 *)
(* ================================================================== *)

Record AgentResult := mkAgentResult {
  agent_name : pystr;
  output : pystr;
  success : bool;
  returncode : Z;
  stderr : pystr;
  duration_seconds : Q;
  rate_limited : bool;
  retries : Z;
  metadata : list (pystr * pystr)
}.

(** The dataclass constructor with its defaults, as the source calls it:
    [AgentResult(agent_name=.., output=.., success=.., returncode=..,
    stderr=..)]. *)
Definition AgentResult_init (name out : pystr) (ok : bool) (rc : Z)
    (err : pystr) : AgentResult :=
  {| agent_name := name; output := out; success := ok; returncode := rc;
     stderr := err; duration_seconds := 0; rate_limited := false;
     retries := 0; metadata := [] |}.

(** [AgentResult.from_error(agent_name, error)]; [error_text] is
    [str(error)]. *)
Definition from_error (name : pystr) (error_text : pystr) : AgentResult :=
  AgentResult_init name [] false (-1) error_text.

(** The two attribute assignments the executor performs on a result. *)
Definition set_retries (n : Z) (r : AgentResult) : AgentResult :=
  {| agent_name := agent_name r; output := output r; success := success r;
     returncode := returncode r; stderr := stderr r;
     duration_seconds := duration_seconds r;
     rate_limited := rate_limited r; retries := n;
     metadata := metadata r |}.

Definition set_duration (d : Q) (r : AgentResult) : AgentResult :=
  {| agent_name := agent_name r; output := output r; success := success r;
     returncode := returncode r; stderr := stderr r;
     duration_seconds := d;
     rate_limited := rate_limited r; retries := retries r;
     metadata := metadata r |}.

(** [AgentResult.status_label]. *)
Definition status_label (r : AgentResult) : pystr :=
  if success r then
    if (0 <? retries r)%Z then
      lit "SUCCESS (retried " ++ str_of_int (retries r) ++ lit "x)"
    else lit "SUCCESS"
  else if rate_limited r then lit "RATE_LIMITED"
  else if contains (lit "timed out") (lower (stderr r))
          || contains (lit "timeout") (lower (stderr r))
       then lit "TIMEOUT"
  else lit "FAILED".

(** [AgentResult.truncated_output]. *)
Definition truncated_output (r : AgentResult) : pystr :=
  if (List.length (output r) <=? 500)%nat then output r
  else firstn 500 (output r) ++ lit "...".

(* ================================================================== *)
(** * Python library functions the adapters call                       *)
(* ================================================================== *)

Definition bytes := list Byte.byte.

(** A [bytes] literal of ASCII text. *)
Definition blit (s : string) : bytes := list_byte_of_string s.

Local Open Scope N_scope.

Definition REPLACEMENT_CHARACTER : pychar := 65533.

Definition is_continuation (b : N) : bool := (128 <=? b) && (b <=? 191).

(** [bytes.decode("utf-8", errors="replace")] on the byte values.  A
    well-formed sequence gives its code point.  An ill-formed one gives one
    U+FFFD for the longest prefix that could still start a character, and
    decoding goes on behind that prefix; input that ends inside a character
    gives one U+FFFD.  Overlong forms, surrogates and code points above
    U+10FFFF are ill-formed from their second byte on. *)
Fixpoint decode_utf8 (bs : list N) : pystr :=
  match bs with
  | [] => []
  | b0 :: r1 =>
    if b0 <? 128 then b0 :: decode_utf8 r1
    else if b0 <? 194 then REPLACEMENT_CHARACTER :: decode_utf8 r1
    else if b0 <? 224 then
      match r1 with
      | [] => [REPLACEMENT_CHARACTER]
      | b1 :: r2 =>
        if is_continuation b1
        then ((b0 - 192) * 64 + (b1 - 128)) :: decode_utf8 r2
        else REPLACEMENT_CHARACTER :: decode_utf8 r1
      end
    else if b0 <? 240 then
      match r1 with
      | [] => [REPLACEMENT_CHARACTER]
      | b1 :: r2 =>
        if negb (is_continuation b1)
           || ((b0 =? 224) && (b1 <? 160))
           || ((b0 =? 237) && (160 <=? b1))
        then REPLACEMENT_CHARACTER :: decode_utf8 r1
        else
          match r2 with
          | [] => [REPLACEMENT_CHARACTER]
          | b2 :: r3 =>
            if is_continuation b2
            then ((b0 - 224) * 4096 + (b1 - 128) * 64 + (b2 - 128))
                   :: decode_utf8 r3
            else REPLACEMENT_CHARACTER :: decode_utf8 r2
          end
      end
    else if b0 <? 245 then
      match r1 with
      | [] => [REPLACEMENT_CHARACTER]
      | b1 :: r2 =>
        if negb (is_continuation b1)
           || ((b0 =? 240) && (b1 <? 144))
           || ((b0 =? 244) && (144 <=? b1))
        then REPLACEMENT_CHARACTER :: decode_utf8 r1
        else
          match r2 with
          | [] => [REPLACEMENT_CHARACTER]
          | b2 :: r3 =>
            if negb (is_continuation b2)
            then REPLACEMENT_CHARACTER :: decode_utf8 r2
            else
              match r3 with
              | [] => [REPLACEMENT_CHARACTER]
              | b3 :: r4 =>
                if is_continuation b3
                then ((b0 - 240) * 262144 + (b1 - 128) * 4096
                      + (b2 - 128) * 64 + (b3 - 128)) :: decode_utf8 r4
                else REPLACEMENT_CHARACTER :: decode_utf8 r3
              end
          end
      end
    else REPLACEMENT_CHARACTER :: decode_utf8 r1
  end.

Definition decode (b : bytes) : pystr := decode_utf8 (List.map Byte.to_N b).

(** The line boundaries of [str.splitlines()]. *)
Definition is_linebreak (c : pychar) : bool :=
  ((10 <=? c) && (c <=? 13)) || ((28 <=? c) && (c <=? 30))
  || (c =? 133) || (c =? 8232) || (c =? 8233).

(** [str.splitlines()]: [cur] is the line being read, last character
    first.  A carriage return followed by a line feed is one boundary, and
    no empty line is reported after a final boundary. *)
Fixpoint splitlines_from (cur : pystr) (s : pystr) : list pystr :=
  match s with
  | [] => match cur with [] => [] | _ => [rev cur] end
  | c :: t =>
    if c =? 13 then
      match t with
      | 10 :: t' => rev cur :: splitlines_from [] t'
      | _ => rev cur :: splitlines_from [] t
      end
    else if is_linebreak c then rev cur :: splitlines_from [] t
    else splitlines_from (c :: cur) t
  end.

Definition splitlines (s : pystr) : list pystr := splitlines_from [] s.

Local Close Scope N_scope.

(** ** Regular expressions ([re], flag [IGNORECASE]) *)

Module Re.

(** What one pattern position accepts. *)
Inductive cclass :=
| CLit (c : pychar)   (** a literal, written in lower case in the pattern *)
| CDot                (** [.] : any character but a line feed *)
| CColonSpace         (** [[:\s]] *)
| CDigit.             (** [\d], on ASCII digits *)

(** Case folding of [IGNORECASE] on a text character: the 52 ASCII letters
    and the four other characters that match an ASCII letter (capital I
    with dot above, dotless i, long s, KELVIN SIGN). *)
Definition fold_case (c : pychar) : pychar :=
  (if (65 <=? c) && (c <=? 90) then c + 32
   else if (c =? 304) || (c =? 305) then 105
   else if c =? 383 then 115
   else if c =? 8490 then 107
   else c)%N.

Definition accepts (k : cclass) (c : pychar) : bool :=
  match k with
  | CLit p => N.eqb (fold_case c) p
  | CDot => negb (N.eqb c 10)
  | CColonSpace => N.eqb c 58 || isspace c
  | CDigit => isdigit c
  end.

Inductive regex :=
| Empty
| Eps
| Chr (k : cclass)
| Cat (a b : regex)
| Alt (a b : regex)
| Star (a : regex).

(** [r?], [r+] and a literal word. *)
Definition Opt (r : regex) : regex := Alt r Eps.

Fixpoint word (s : pystr) : regex :=
  match s with
  | [] => Eps
  | c :: t => Cat (Chr (CLit c)) (word t)
  end.

Fixpoint seq (rs : list regex) : regex :=
  match rs with
  | [] => Eps
  | r :: t => Cat r (seq t)
  end.

(** The language of a pattern. *)
Inductive matches : regex -> pystr -> Prop :=
| MEps : matches Eps []
| MChr k c : accepts k c = true -> matches (Chr k) [c]
| MCat a b s t : matches a s -> matches b t -> matches (Cat a b) (s ++ t)
| MAltL a b s : matches a s -> matches (Alt a b) s
| MAltR a b s : matches b s -> matches (Alt a b) s
| MStarNil a : matches (Star a) []
| MStarCons a s t :
    matches a s -> matches (Star a) t -> matches (Star a) (s ++ t).

(** [pattern.search(text)] finds something: some part of the text is in
    the language of the pattern. *)
Definition found (r : regex) (text : pystr) : Prop :=
  exists pre m suf, text = pre ++ m ++ suf /\ matches r m.

(** Deciding [found] with derivatives. *)
Fixpoint nullable (r : regex) : bool :=
  match r with
  | Empty => false
  | Eps => true
  | Chr _ => false
  | Cat a b => nullable a && nullable b
  | Alt a b => nullable a || nullable b
  | Star _ => true
  end.

Definition cat (a b : regex) : regex :=
  match a, b with
  | Empty, _ => Empty
  | _, Empty => Empty
  | Eps, _ => b
  | _, _ => Cat a b
  end.

Definition alt (a b : regex) : regex :=
  match a, b with
  | Empty, _ => b
  | _, Empty => a
  | _, _ => Alt a b
  end.

Fixpoint deriv (c : pychar) (r : regex) : regex :=
  match r with
  | Empty => Empty
  | Eps => Empty
  | Chr k => if accepts k c then Eps else Empty
  | Cat a b =>
      alt (cat (deriv c a) b) (if nullable a then deriv c b else Empty)
  | Alt a b => alt (deriv c a) (deriv c b)
  | Star a => cat (deriv c a) (Star a)
  end.

(** Some prefix of [s] is in the language of [r]. *)
Fixpoint match_prefix (r : regex) (s : pystr) : bool :=
  nullable r
  || match s with
     | [] => false
     | c :: t => match_prefix (deriv c r) t
     end.

(** [pattern.search(text) is not None]. *)
Fixpoint search (r : regex) (text : pystr) : bool :=
  match_prefix r text
  || match text with
     | [] => false
     | _ :: t => search r t
     end.

End Re.

(* ================================================================== *)
(** * adapters/base.py                                                 *)
(* ================================================================== *)

Import Re.

Definition dot_opt : regex := Opt (Chr CDot).

(** [RATE_LIMIT_PATTERNS], in the order of the source. *)
Definition RATE_LIMIT_PATTERNS : list regex :=
  [ seq [word (lit "rate"); dot_opt; word (lit "limit")];
    word (lit "too many requests");
    word (lit "429");
    seq [word (lit "quota"); dot_opt; word (lit "exceeded")];
    seq [word (lit "resource"); dot_opt; word (lit "exhausted")];
    word (lit "overloaded");
    seq [word (lit "retry"); dot_opt; word (lit "after")];
    seq [word (lit "token"); Opt (word (lit "s")); dot_opt;
         word (lit "per"); dot_opt; word (lit "min")];
    seq [word (lit "request"); Opt (word (lit "s")); dot_opt;
         word (lit "per"); dot_opt; word (lit "min")] ].


(** The pattern tried at the start of [s], as the backtracking matcher
    runs it: the text of group 1 of the first successful path.  The two
    ways through [.?] never both reach [after]; [[:\s]+] and [\d+] are
    followed by a character outside their class, so the greedy run is the
    only one. *)
Fixpoint skip_word (w s : pystr) : option pystr :=
  match w, s with
  | [], _ => Some s
  | _ :: _, [] => None
  | p :: w', c :: s' =>
      if N.eqb (fold_case c) p then skip_word w' s' else None
  end.

Fixpoint span (p : pychar -> bool) (s : pystr) : pystr * pystr :=
  match s with
  | c :: t =>
      if p c then let (run, rest) := span p t in (c :: run, rest)
      else ([], s)
  | [] => ([], [])
  end.

Definition retry_after_group (s : pystr) : option pystr :=
  match skip_word (lit "retry") s with
  | None => None
  | Some s1 =>
    let with_dot :=
      match s1 with
      | c :: t => if accepts CDot c then skip_word (lit "after") t else None
      | [] => None
      end in
    let after :=
      match with_dot with
      | Some s2 => Some s2
      | None => skip_word (lit "after") s1
      end in
    match after with
    | None => None
    | Some s2 =>
      match span (accepts CColonSpace) s2 with
      | ([], _) => None
      | (_ :: _, s3) =>
        match span isdigit s3 with
        | ([], _) => None
        | ((_ :: _) as whole, s4) =>
          match s4 with
          | c :: s5 =>
            if N.eqb c 46 then
              match span isdigit s5 with
              | ([], _) => Some whole
              | ((_ :: _) as frac, _) => Some (whole ++ 46%N :: frac)
              end
            else Some whole
          | [] => Some whole
          end
        end
      end
    end
  end.

(** [RETRY_AFTER_PATTERN.search(text)]: group 1 of the leftmost match. *)
Fixpoint retry_after_search (text : pystr) : option pystr :=
  match retry_after_group text with
  | Some g => Some g
  | None =>
    match text with
    | [] => None
    | _ :: t => retry_after_search t
    end
  end.

(** [float(g)] for a group text [digits] or [digits.digits]: its exact
    decimal value. *)
Definition digit_value (c : pychar) : Z := Z.of_N (c - 48).

Definition int_of_digits (ds : pystr) : Z :=
  fold_left (fun acc c => 10 * acc + digit_value c)%Z ds 0%Z.

Definition float_of_decimal (g : pystr) : Q :=
  let (whole, rest) := span isdigit g in
  match rest with
  | 46%N :: frac =>
      Qmake (int_of_digits (whole ++ frac))
            (Z.to_pos (10 ^ Z.of_nat (List.length frac)))
  | _ => inject_Z (int_of_digits whole)
  end.

(** The agent kinds: the subclasses of [AgentAdapter]. *)
Inductive AgentKind := Claude | Codex | Gemini.

(** The instance attributes [AgentAdapter.__init__] sets
    ([extra_args or []] is the list itself). *)
Record AgentAdapter := mkAdapter {
  kind : AgentKind;
  binary_path : pystr;
  timeout : Z;
  auto_approve : bool;
  default_model : option pystr;
  extra_args : list pystr
}.

(** The class attribute [name]. *)
Definition name (a : AgentAdapter) : pystr :=
  match kind a with
  | Claude => lit "claude"
  | Codex => lit "codex"
  | Gemini => lit "gemini"
  end.

Definition display_name (a : AgentAdapter) : pystr :=
  match kind a with
  | Claude => lit "Claude Code"
  | Codex => lit "Codex CLI"
  | Gemini => lit "Gemini CLI"
  end.

Definition provider (a : AgentAdapter) : pystr :=
  match kind a with
  | Claude => lit "Anthropic"
  | Codex => lit "OpenAI"
  | Gemini => lit "Google"
  end.

(** The keyword arguments of [build_command], with their defaults. *)
Record Kwargs := mkKwargs {
  kw_json_output : bool;
  kw_model : option pystr;
  kw_auto_approve : option bool;
  kw_system_prompt : option pystr;
  kw_max_turns : option Z
}.

Definition no_kwargs : Kwargs :=
  {| kw_json_output := false; kw_model := None; kw_auto_approve := None;
     kw_system_prompt := None; kw_max_turns := None |}.

(** Truth value of a [str | None] and of an [int | None]. *)
Definition truthy_str (s : option pystr) : bool :=
  match s with
  | Some (_ :: _) => true
  | _ => false
  end.

Definition truthy_int (n : option Z) : bool :=
  match n with
  | Some z => negb (Z.eqb z 0)
  | None => false
  end.

(** [a or b] on [str | None]. *)
Definition str_or (a b : option pystr) : option pystr :=
  if truthy_str a then a else b.

(** [cmd += [flag, value]] when the value is truthy. *)
Definition flag_value (flag : pystr) (v : option pystr) : list pystr :=
  match v with
  | Some ((_ :: _) as s) => [flag; s]
  | _ => []
  end.

(** [auto_approve if auto_approve is not None else self.auto_approve]. *)
Definition effective_approve (a : AgentAdapter) (approve : option bool)
    : bool :=
  match approve with
  | Some b => b
  | None => auto_approve a
  end.

(** [ClaudeAdapter.build_command]. *)
Definition ClaudeAdapter_build_command (a : AgentAdapter) (prompt : pystr)
    (kw : Kwargs) : list pystr :=
  [binary_path a; lit "-p"; prompt]
  ++ (if kw_json_output kw then [lit "--output-format"; lit "json"] else [])
  ++ flag_value (lit "--model") (str_or (kw_model kw) (default_model a))
  ++ (if effective_approve a (kw_auto_approve kw)
      then [lit "--permission-mode"; lit "dontAsk"] else [])
  ++ flag_value (lit "--append-system-prompt") (kw_system_prompt kw)
  ++ (if truthy_int (kw_max_turns kw)
      then [lit "--max-turns";
            str_of_int (match kw_max_turns kw with Some n => n | None => 0%Z end)]
      else [])
  ++ extra_args a.

(** [CodexAdapter.build_command]. *)
Definition CodexAdapter_build_command (a : AgentAdapter) (prompt : pystr)
    (kw : Kwargs) : list pystr :=
  [binary_path a; lit "exec"]
  ++ flag_value (lit "-m") (str_or (kw_model kw) (default_model a))
  ++ (if effective_approve a (kw_auto_approve kw)
      then [lit "--full-auto"] else [])
  ++ (if kw_json_output kw then [lit "--json"] else [])
  ++ extra_args a
  ++ [prompt].

(** [GeminiAdapter.build_command]. *)
Definition GeminiAdapter_build_command (a : AgentAdapter) (prompt : pystr)
    (kw : Kwargs) : list pystr :=
  [binary_path a]
  ++ (if kw_json_output kw then [lit "--output-format"; lit "json"] else [])
  ++ flag_value (lit "-m") (str_or (kw_model kw) (default_model a))
  ++ (if effective_approve a (kw_auto_approve kw) then [lit "-y"] else [])
  ++ extra_args a
  ++ [prompt].

(** Method dispatch on the class of the adapter. *)
Definition build_command (a : AgentAdapter) (prompt : pystr) (kw : Kwargs)
    : list pystr :=
  match kind a with
  | Claude => ClaudeAdapter_build_command a prompt kw
  | Codex => CodexAdapter_build_command a prompt kw
  | Gemini => GeminiAdapter_build_command a prompt kw
  end.

(** [GeminiAdapter._filter_stderr]. *)
Definition GeminiAdapter_filter_stderr (stderr : pystr) : pystr :=
  let lines := splitlines stderr in
  let filtered :=
    filter (fun line =>
              negb (contains (lit "punycode") (lower line))
              && negb (contains (lit "DeprecationWarning") line))
           lines in
  strip (join [10%N] filtered).

(** [_filter_stderr]: the identity of the base class unless overridden. *)
Definition _filter_stderr (a : AgentAdapter) (stderr : pystr) : pystr :=
  match kind a with
  | Gemini => GeminiAdapter_filter_stderr stderr
  | _ => stderr
  end.

(** [f"{stdout}\n{stderr}"]. *)
Definition combined (stdout stderr : pystr) : pystr :=
  stdout ++ [10%N] ++ stderr.

(** [AgentAdapter.is_rate_limited]. *)
Definition is_rate_limited (stdout stderr : pystr) (returncode : Z) : bool :=
  existsb (fun p => search p (combined stdout stderr)) RATE_LIMIT_PATTERNS.

(** [AgentAdapter.extract_retry_after]. *)
Definition extract_retry_after (stdout stderr : pystr) : option Q :=
  match retry_after_search (combined stdout stderr) with
  | Some g => Some (float_of_decimal g)
  | None => None
  end.

(** [AgentAdapter.parse_output]. *)
Definition parse_output (a : AgentAdapter) (stdout stderr : bytes)
    (returncode : Z) : AgentResult :=
  let out := strip (decode stdout) in
  let err := _filter_stderr a (strip (decode stderr)) in
  let limited := is_rate_limited out err returncode in
  {| agent_name := name a;
     output := out;
     success := Z.eqb returncode 0 && negb limited;
     returncode := returncode;
     stderr := err;
     duration_seconds := 0;
     rate_limited := limited;
     retries := 0;
     metadata := [] |}.

(* ================================================================== *)
(** * models/config.py                                                 *)
(* ================================================================== *)

(** A [dict] with [str] keys, in insertion order. *)
Definition dict (V : Type) := list (pystr * V).

Fixpoint dict_get {V : Type} (d : dict V) (key : pystr) : option V :=
  match d with
  | [] => None
  | (k, v) :: rest => if pystr_eqb k key then Some v else dict_get rest key
  end.

(** [list(d.keys())]. *)
Definition keys {V : Type} (d : dict V) : list pystr := List.map fst d.

Module Config.

Record AgentConfig := mkAgentConfig {
  binary_path : option pystr;
  default_model : option pystr;
  auto_approve : bool;
  timeout : Z;
  max_turns : option Z;
  extra_args : list pystr
}.

Record AppConfig := mkAppConfig {
  primary : pystr;
  parallel_timeout : Z;
  json_output : bool;
  max_retries : Z;
  retry_base_delay : Q;
  retry_max_delay : Q;
  agents : dict AgentConfig
}.

End Config.

(* ================================================================== *)
(** * core/executor.py                                                 *)
(* ================================================================== *)

(** ** Exceptions and the world *)

(** A raised exception: whether it is an instance of [Exception], the name
    of its class, and [str(e)]. *)
Inductive PyExc :=
| Exc (class_name : pystr) (text : pystr)
| BaseExc (class_name : pystr) (text : pystr).

Definition exc_text (e : PyExc) : pystr :=
  match e with
  | Exc _ t => t
  | BaseExc _ t => t
  end.

(** What one [create_subprocess_exec] followed by
    [wait_for(proc.communicate(), timeout)] comes to. *)
Inductive ProcOutcome :=
| Exited (stdout stderr : bytes) (returncode : Z)
| TimedOut
| Threw (e : PyExc).

(** The operating system: what the [k]-th process spawned during the run
    does, given its argument vector and the timeout it is awaited with, and
    how long that takes. *)
Definition OS := nat -> list pystr -> Z -> ProcOutcome * Q.

(** A call the orchestrator makes on its executor. *)
Inductive ExecutorCall :=
| CallSingle (agent_name prompt : pystr) (kw : Kwargs)
| CallParallel (tasks : list (pystr * pystr)).

Record World := mkWorld {
  now : Q;                         (** [time.monotonic()] *)
  spawned : list (list pystr);     (** argument vectors spawned, oldest first *)
  slept : list Q;                  (** arguments of [asyncio.sleep], oldest first *)
  calls : list ExecutorCall        (** executor calls of the orchestrator *)
}.

Inductive Outcome (A : Type) :=
| Return (a : A)
| Raise (e : PyExc).

Arguments Return {A} a.
Arguments Raise {A} e.

(** A computation that reads and changes the world and may raise. *)
Definition M (A : Type) := World -> Outcome A * World.

Definition ret {A : Type} (a : A) : M A := fun w => (Return a, w).

Definition raise {A : Type} (e : PyExc) : M A := fun w => (Raise e, w).

Definition bind {A B : Type} (c : M A) (k : A -> M B) : M B :=
  fun w =>
    match c w with
    | (Return a, w') => k a w'
    | (Raise e, w') => (Raise e, w')
    end.

Notation "x <- c ;; k" := (bind c (fun x => k))
  (at level 61, c at next level, right associativity).

(** [time.monotonic()]. *)
Definition monotonic : M Q := fun w => (Return (now w), w).

(** [await asyncio.sleep(delay)]. *)
Definition sleep (delay : Q) : M unit :=
  fun w =>
    (Return tt,
     {| now := now w + Qmax 0 delay; spawned := spawned w;
        slept := slept w ++ [delay]; calls := calls w |}).

(** [create_subprocess_exec] on the command and the wait for its output. *)
Definition spawn_and_wait (os : OS) (cmd : list pystr) (tmo : Z)
    : M ProcOutcome :=
  fun w =>
    let (o, dt) := os (List.length (spawned w)) cmd tmo in
    (Return o,
     {| now := now w + dt; spawned := spawned w ++ [cmd];
        slept := slept w; calls := calls w |}).

Definition record_call (c : ExecutorCall) : M unit :=
  fun w =>
    (Return tt,
     {| now := now w; spawned := spawned w; slept := slept w;
        calls := calls w ++ [c] |}).

(** [min(a, b)]: [b] when [b < a], else [a]. *)
Definition py_min (a b : Q) : Q := if Qle_bool a b then a else b.

(** [range(n)]. *)
Definition py_range (n : Z) : list Z :=
  List.map Z.of_nat (List.seq 0 (Z.to_nat n)).

(** ** The executor *)

Record AgentExecutor := mkExecutor {
  adapters : dict AgentAdapter;
  _max_retries : Z;
  _retry_base_delay : Q;
  _retry_max_delay : Q
}.

(** [AgentExecutor.__init__]. *)
Definition AgentExecutor_init (adapters : dict AgentAdapter)
    (config : option Config.AppConfig) : AgentExecutor :=
  {| adapters := adapters;
     _max_retries :=
       match config with Some c => Config.max_retries c | None => 3%Z end;
     _retry_base_delay :=
       match config with Some c => Config.retry_base_delay c | None => 5 end;
     _retry_max_delay :=
       match config with Some c => Config.retry_max_delay c | None => 60 end
  |}.

(** [AgentExecutor._compute_delay]. *)
Definition _compute_delay (ex : AgentExecutor) (attempt : Z)
    (last_result : option AgentResult) (adapter : AgentAdapter) : Q :=
  let backoff :=
    py_min (_retry_base_delay ex * Qpower 2 (attempt - 1))
           (_retry_max_delay ex) in
  match last_result with
  | Some r =>
    match extract_retry_after (output r) (stderr r) with
    | Some server_delay => py_min server_delay (_retry_max_delay ex)
    | None => backoff
    end
  | None => backoff
  end.

(** The result [_execute_once] makes of one process outcome, before its
    duration is set; an exception that is not an [Exception] passes
    through. *)
Definition result_of_outcome (agent_name : pystr) (adapter : AgentAdapter)
    (o : ProcOutcome) : Outcome AgentResult :=
  match o with
  | Exited stdout stderr returncode =>
      Return (parse_output adapter stdout stderr returncode)
  | TimedOut =>
      Return (AgentResult_init agent_name [] false (-1)
                (lit "Agent timed out after "
                 ++ str_of_int (timeout adapter) ++ lit "s"))
  | Threw (Exc _ text) => Return (from_error agent_name text)
  | Threw (BaseExc c text) => Raise (BaseExc c text)
  end.

(** [AgentExecutor._execute_once]. *)
Definition _execute_once (os : OS) (agent_name : pystr)
    (adapter : AgentAdapter) (cmd : list pystr) : M AgentResult :=
  start <- monotonic ;;
  o <- spawn_and_wait os cmd (timeout adapter) ;;
  match result_of_outcome agent_name adapter o with
  | Return r =>
      finish <- monotonic ;;
      ret (set_duration (finish - start) r)
  | Raise e => raise e
  end.

(** The body of [for attempt in range(self._max_retries + 1)] over the
    attempts still to come, and the code behind the loop. *)
Fixpoint retry_loop (os : OS) (ex : AgentExecutor) (agent_name : pystr)
    (adapter : AgentAdapter) (cmd : list pystr) (total_start : Q)
    (attempts : list Z) (last_result : option AgentResult)
    : M AgentResult :=
  match attempts with
  | attempt :: rest =>
      _ <- (if (0 <? attempt)%Z
            then sleep (_compute_delay ex attempt last_result adapter)
            else ret tt) ;;
      result <- _execute_once os agent_name adapter cmd ;;
      if negb (rate_limited result) then
        finish <- monotonic ;;
        ret (set_duration (finish - total_start) (set_retries attempt result))
      else
        retry_loop os ex agent_name adapter cmd total_start rest (Some result)
  | [] =>
      match last_result with
      | None => raise (Exc (lit "AssertionError") [])
      | Some r =>
          finish <- monotonic ;;
          ret (set_duration (finish - total_start)
                 (set_retries (_max_retries ex) r))
      end
  end.

(** [AgentExecutor.run_single]. *)
Definition run_single (os : OS) (ex : AgentExecutor)
    (agent_name prompt : pystr) (kw : Kwargs) : M AgentResult :=
  match dict_get (adapters ex) agent_name with
  | None =>
      ret (from_error agent_name (lit "Unknown agent: " ++ agent_name))
  | Some adapter =>
      let cmd := build_command adapter prompt kw in
      total_start <- monotonic ;;
      retry_loop os ex agent_name adapter cmd total_start
        (py_range (_max_retries ex + 1)) None
  end.

(** [asyncio.gather] with [return_exceptions=True]: one entry per
    coroutine, in the order given, an exception being an entry like a
    result.  The coroutines are run one after the other; how the event
    loop interleaves them is not represented. *)
Fixpoint gather {A : Type} (coros : list (M A))
    : World -> list (Outcome A) * World :=
  match coros with
  | [] => fun w => ([], w)
  | c :: rest =>
      fun w =>
        let (o, w1) := c w in
        let (os, w2) := gather rest w1 in
        (o :: os, w2)
  end.

(** The loop [for i, r in enumerate(results)] of [run_parallel], from
    index [i] on. *)
Fixpoint collect (tasks : list (pystr * pystr)) (i : nat)
    (results : list (Outcome AgentResult)) : list AgentResult :=
  match results with
  | [] => []
  | r :: rest =>
      (match r with
       | Return res => res
       | Raise (Exc _ text) =>
           let agent_name :=
             match nth_error tasks i with
             | Some (agent, _) => agent
             | None => lit "unknown"
             end in
           from_error agent_name text
       | Raise (BaseExc _ text) => from_error (lit "unknown") text
       end) :: collect tasks (S i) rest
  end.

(** [AgentExecutor.run_parallel]. *)
Definition run_parallel (os : OS) (ex : AgentExecutor)
    (tasks : list (pystr * pystr)) (kw : Kwargs) : M (list AgentResult) :=
  fun w =>
    let coros :=
      List.map (fun t => run_single os ex (fst t) (snd t) kw) tasks in
    let (results, w') := gather coros w in
    (Return (collect tasks 0 results), w').

(* ================================================================== *)
(** * core/orchestrator.py                                             *)
(* ================================================================== *)

(** A value [json.loads] returns. *)
#[local] Unset Elimination Schemes.
Inductive json :=
| JNull
| JBool (b : bool)
| JInt (n : Z)
| JFloat (q : Q)
| JStr (s : pystr)
| JList (l : list json)
| JDict (d : list (pystr * json)).
#[local] Set Elimination Schemes.

(** Truth value of a JSON value. *)
Definition truthy (v : json) : bool :=
  match v with
  | JNull => false
  | JBool b => b
  | JInt n => negb (Z.eqb n 0)
  | JFloat q => negb (Qeq_bool q 0)
  | JStr s => match s with [] => false | _ => true end
  | JList l => match l with [] => false | _ => true end
  | JDict d => match d with [] => false | _ => true end
  end.

Definition type_name (v : json) : pystr :=
  match v with
  | JNull => lit "NoneType"
  | JBool _ => lit "bool"
  | JInt _ => lit "int"
  | JFloat _ => lit "float"
  | JStr _ => lit "str"
  | JList _ => lit "list"
  | JDict _ => lit "dict"
  end.

(** [len(v)]: a [TypeError] for a value without length. *)
Definition py_len (v : json) : Outcome nat :=
  match v with
  | JStr s => Return (List.length s)
  | JList l => Return (List.length l)
  | JDict d => Return (List.length d)
  | _ => Raise (Exc (lit "TypeError")
                  (lit "object of type '" ++ type_name v
                   ++ lit "' has no len()"))
  end.

(** [iter(v)]: the elements a [for] loop visits. *)
Definition py_iter (v : json) : Outcome (list json) :=
  match v with
  | JStr s => Return (List.map (fun c => JStr [c]) s)
  | JList l => Return l
  | JDict d => Return (List.map (fun kv => JStr (fst kv)) d)
  | _ => Raise (Exc (lit "TypeError")
                  (lit "'" ++ type_name v ++ lit "' object is not iterable"))
  end.

(** [d.get(key, default)]. *)
Definition get_or {V : Type} (d : dict V) (key : pystr) (default : V) : V :=
  match dict_get d key with
  | Some v => v
  | None => default
  end.

(** A source literal in which [~] stands for a double quote. *)
Definition lit_q (s : string) : pystr :=
  List.map (fun c => if N.eqb c 126 then 34%N else c) (lit s).

Definition ORCHESTRATION_SYSTEM_PROMPT : pystr := lit_q
"You are Neurones, an AI orchestrator. You have access to three AI development agents:

AVAILABLE AGENTS:
- claude: Best for reasoning, planning, documentation, debugging, architecture
- gemini: Best for web search, research, quick factual queries, Google ecosystem
- codex: Best for code generation, code review, sandboxed execution, file operations

TASK: Analyze the user's request and create a delegation plan.

RULES:
1. If the task is simple enough for one agent, set ~delegate~: false and handle it yourself.
2. If the task benefits from multiple agents, create subtasks with specific prompts.
3. Each subtask prompt must be self-contained (the receiving agent has no prior context).
4. You can assign tasks to yourself too.

Respond with ONLY this JSON (no markdown, no explanation):
{
  ~delegate~: true/false,
  ~reasoning~: ~Brief explanation of your delegation decision~,
  ~subtasks~: [
    {
      ~agent~: ~claude|gemini|codex~,
      ~prompt~: ~Specific, self-contained prompt for this agent~,
      ~priority~: ~high|medium|low~
    }
  ],
  ~self_task~: ~What you will handle directly (null if delegating everything)~
}
".

Definition CLAUDE_COORDINATOR_ONLY_POLICY : pystr := lit_q
"PRIMARY POLICY:
- The primary agent (claude) is coordinator-only.
- Always set ~delegate~: true.
- Do not assign any subtask to ~claude~.
- Always set ~self_task~: null.
".

Definition NO_WORKERS : PyExc :=
  Exc (lit "RuntimeError")
      (lit "No worker agents available for coordinator-only primary").

(** [json.loads(extract_json_block(text))]: the value, or the text of the
    exception raised.  The repair and the parsing of JSON are libraries
    outside the repository; the orchestrator is given them. *)
Definition JsonLoader := pystr -> json + pystr.

Module Orchestrator.

Record t := mk {
  primary : pystr;
  adapters : dict AgentAdapter;
  executor : AgentExecutor;
  config : Config.AppConfig;
  available_agents : list pystr
}.

(** [Orchestrator.__init__]. *)
Definition init (primary : pystr) (adapters : dict AgentAdapter)
    (executor : AgentExecutor) (config : Config.AppConfig)
    (available_agents : option (list pystr)) : t :=
  {| primary := primary; adapters := adapters; executor := executor;
     config := config;
     available_agents :=
       match available_agents with
       | Some ((_ :: _) as l) => l
       | _ => keys adapters
       end |}.

(** [self.executor.run_single(..)] and [self.executor.run_parallel(..)],
    each call being recorded. *)
Definition executor_run_single (os : OS) (o : t) (agent_name prompt : pystr)
    (kw : Kwargs) : M AgentResult :=
  _ <- record_call (CallSingle agent_name prompt kw) ;;
  run_single os (executor o) agent_name prompt kw.

Definition executor_run_parallel (os : OS) (o : t)
    (tasks : list (pystr * pystr)) : M (list AgentResult) :=
  _ <- record_call (CallParallel tasks) ;;
  run_parallel os (executor o) tasks no_kwargs.

(** [Orchestrator._primary_is_coordinator_only]. *)
Definition _primary_is_coordinator_only (o : t) : bool :=
  pystr_eqb (primary o) (lit "claude").

(** [Orchestrator._build_worker_fallback_tasks]. *)
Definition _build_worker_fallback_tasks (o : t) (prompt : pystr)
    : list (pystr * pystr) :=
  List.map (fun agent_name => (agent_name, prompt))
    (filter (fun agent_name => negb (pystr_eqb agent_name (primary o)))
            (keys (adapters o))).

(** The body of the loop of [_build_dispatch_tasks] for one subtask:
    nothing to append, a task to append, or an exception. *)
Definition dispatch_task (o : t) (subtask : json)
    : Outcome (option (pystr * pystr)) :=
  match subtask with
  | JDict d =>
    let agent := get_or d (lit "agent") (JStr []) in
    match dict_get d (lit "prompt") with
    | Some (JStr task_prompt) =>
      match strip task_prompt with
      | [] => Return None
      | _ :: _ =>
        match agent with
        | JStr a =>
          match dict_get (adapters o) a with
          | None => Return None
          | Some _ =>
            if _primary_is_coordinator_only o && pystr_eqb a (primary o)
            then Return None
            else Return (Some (a, task_prompt))
          end
        | JList _ | JDict _ =>
            Raise (Exc (lit "TypeError")
                     (lit "unhashable type: '" ++ type_name agent ++ lit "'"))
        | _ => Return None
        end
      end
    | _ => Return None
    end
  | _ =>
    Raise (Exc (lit "AttributeError")
             (lit "'" ++ type_name subtask
              ++ lit "' object has no attribute 'get'"))
  end.

Fixpoint dispatch_tasks (o : t) (subtasks : list json)
    : Outcome (list (pystr * pystr)) :=
  match subtasks with
  | [] => Return []
  | subtask :: rest =>
    match dispatch_task o subtask with
    | Raise e => Raise e
    | Return added =>
      match dispatch_tasks o rest with
      | Raise e => Raise e
      | Return tasks =>
          Return (match added with Some task => task :: tasks | None => tasks end)
      end
    end
  end.

(** [Orchestrator._build_dispatch_tasks]. *)
Definition _build_dispatch_tasks (o : t) (subtasks : json)
    : Outcome (list (pystr * pystr)) :=
  match py_iter subtasks with
  | Raise e => Raise e
  | Return l => dispatch_tasks o l
  end.

(** The prompt [_analyze] sends. *)
Definition analysis_prompt (o : t) (prompt : pystr) : pystr :=
  let available_info := join (lit ", ") (available_agents o) in
  let policy_block :=
    if _primary_is_coordinator_only o
    then [10%N; 10%N] ++ CLAUDE_COORDINATOR_ONLY_POLICY
    else [] in
  ORCHESTRATION_SYSTEM_PROMPT ++ policy_block
  ++ [10%N; 10%N] ++ lit "AVAILABLE (installed) AGENTS: " ++ available_info
  ++ [10%N; 10%N] ++ lit "USER REQUEST:" ++ [10%N] ++ prompt.

Definition json_kwargs : Kwargs :=
  {| kw_json_output := true; kw_model := None; kw_auto_approve := None;
     kw_system_prompt := None; kw_max_turns := None |}.

(** [Orchestrator._analyze]: the plan, a dictionary with the key
    [delegate]. *)
Definition _analyze (os : OS) (loads : JsonLoader) (o : t) (prompt : pystr)
    : M (dict json) :=
  result <- executor_run_single os o (primary o) (analysis_prompt o prompt)
              json_kwargs ;;
  if negb (success result) then
    raise (Exc (lit "RuntimeError")
             (lit "Primary agent failed during analysis: " ++ stderr result))
  else
    match loads (output result) with
    | inr e =>
        raise (Exc (lit "RuntimeError")
                 (lit "Invalid delegation plan JSON: " ++ e))
    | inl (JDict plan) =>
        match dict_get plan (lit "delegate") with
        | None =>
            raise (Exc (lit "RuntimeError")
                     (lit "Delegation plan missing 'delegate' key"))
        | Some _ => ret plan
        end
    | inl _ =>
        raise (Exc (lit "RuntimeError")
                 (lit "Delegation plan is not a JSON object"))
    end.

(** [Orchestrator._build_synthesis_prompt]. *)
Definition _build_synthesis_prompt (original_prompt : pystr)
    (results : list AgentResult) : pystr :=
  let head :=
    lit "ORIGINAL TASK: " ++ original_prompt ++ [10%N; 10%N]
    ++ lit "RESULTS FROM AGENTS:" ++ [10%N] in
  let block (r : AgentResult) :=
    lit "--- " ++ upper (agent_name r) ++ lit " [" ++ status_label r
    ++ lit "] ---" ++ [10%N] ++ output r ++ [10%N] in
  let tail :=
    [10%N]
    ++ lit "Synthesize these results into a single, coherent response. "
    ++ lit "Merge complementary information, resolve conflicts, and present "
    ++ lit "the best unified answer." in
  join [10%N] ([head] ++ List.map block results ++ [tail]).

(** Dispatch, synthesis on the primary, and the output of the synthesis:
    the common end of the delegating branches of [run]. *)
Definition dispatch_and_synthesize (os : OS) (o : t) (prompt : pystr)
    (tasks : list (pystr * pystr)) : M pystr :=
  results <- executor_run_parallel os o tasks ;;
  final <- executor_run_single os o (primary o)
             (_build_synthesis_prompt prompt results) no_kwargs ;;
  ret (output final).

(** The worker broadcast a coordinator-only primary falls back to. *)
Definition worker_fallback (os : OS) (o : t) (prompt : pystr) : M pystr :=
  match _build_worker_fallback_tasks o prompt with
  | [] => raise NO_WORKERS
  | (_ :: _) as tasks => dispatch_and_synthesize os o prompt tasks
  end.

(** The prompt run on the primary itself. *)
Definition direct (os : OS) (o : t) (prompt : pystr) : M pystr :=
  result <- executor_run_single os o (primary o) prompt no_kwargs ;;
  ret (output result).

(** An outcome as a computation. *)
Definition lift {A : Type} (x : Outcome A) : M A :=
  match x with
  | Return a => ret a
  | Raise e => raise e
  end.

(** [Orchestrator.run] behind a successful analysis. *)
Definition run_plan (os : OS) (o : t) (prompt : pystr) (plan : dict json)
    : M pystr :=
  (* the arguments of the log record of the plan *)
  _ <- lift (py_len (get_or plan (lit "subtasks") (JList []))) ;;
  if negb (truthy (get_or plan (lit "delegate") (JBool false))) then
    if _primary_is_coordinator_only o
    then worker_fallback os o prompt
    else direct os o prompt
  else
    tasks <- lift (_build_dispatch_tasks o
                     (get_or plan (lit "subtasks") (JList []))) ;;
    let synthesize (tasks : list (pystr * pystr)) : M pystr :=
      results <- executor_run_parallel os o tasks ;;
      let self_task := get_or plan (lit "self_task") JNull in
      results <-
        (if truthy self_task && negb (_primary_is_coordinator_only o) then
           match self_task with
           | JStr s =>
               primary_result <-
                 executor_run_single os o (primary o) s no_kwargs ;;
               ret (results ++ [primary_result])
           | _ =>
               (* a truthy self-task that is no string is no prompt *)
               raise (Exc (lit "TypeError") (type_name self_task))
           end
         else ret results) ;;
      final <- executor_run_single os o (primary o)
                 (_build_synthesis_prompt prompt results) no_kwargs ;;
      ret (output final) in
    match tasks with
    | [] =>
      if _primary_is_coordinator_only o then
        match _build_worker_fallback_tasks o prompt with
        | [] => raise NO_WORKERS
        | (_ :: _) as fallback => synthesize fallback
        end
      else direct os o prompt
    | _ :: _ => synthesize tasks
    end.

(** [Orchestrator.run]. *)
Definition run (os : OS) (loads : JsonLoader) (o : t) (prompt : pystr)
    : M pystr :=
  fun w =>
    match _analyze os loads o prompt w with
    | (Return plan, w1) => run_plan os o prompt plan w1
    | (Raise (Exc _ _), w1) =>
        if _primary_is_coordinator_only o
        then worker_fallback os o prompt w1
        else direct os o prompt w1
    | (Raise (BaseExc c e), w1) => (Raise (BaseExc c e), w1)
    end.

End Orchestrator.

(* ================================================================== *)
(** * Vocabulary of the statements                                     *)
(* ================================================================== *)

(** The result the [k]-th process of the run leads to in
    [_execute_once], its duration left at zero. *)
Definition attempt (os : OS) (agent_name : pystr) (adapter : AgentAdapter)
    (cmd : list pystr) (k : nat) : Outcome AgentResult :=
  result_of_outcome agent_name adapter (fst (os k cmd (timeout adapter))).







(** The flag by which each agent is told to approve on its own (for Claude
    the flag of the pair [--permission-mode dontAsk]), and the flag that
    introduces the model. *)
Definition approval_flag (k : AgentKind) : pystr :=
  match k with
  | Claude => lit "--permission-mode"
  | Codex => lit "--full-auto"
  | Gemini => lit "-y"
  end.

Definition model_flag (k : AgentKind) : pystr :=
  match k with
  | Claude => lit "--model"
  | Codex => lit "-m"
  | Gemini => lit "-m"
  end.

Definition opt_list {A : Type} (o : option A) : list A :=
  match o with
  | Some a => [a]
  | None => []
  end.

(** The strings a command takes from its caller and its configuration. *)
Definition caller_strings (a : AgentAdapter) (prompt : pystr) (kw : Kwargs)
    : list pystr :=
  [binary_path a; prompt] ++ extra_args a
  ++ opt_list (kw_model kw) ++ opt_list (default_model a)
  ++ opt_list (kw_system_prompt kw).

Definition pystr_eq_dec : forall a b : pystr, {a = b} + {a <> b} :=
  list_eq_dec N.eq_dec.

(** A text that starts with two dashes. *)
Definition starts_dashdash (s : pystr) : bool :=
  match s with
  | a :: b :: _ => N.eqb a 45 && N.eqb b 45
  | _ => false
  end.



(** What follows a run of [span]: nothing, or a character outside the
    class. *)
Definition stops (p : pychar -> bool) (rest : pystr) : Prop :=
  match rest with
  | [] => True
  | c :: _ => p c = false
  end.

(* ================================================================== *)
(** * Scenarios                                                        *)
(* ================================================================== *)

(** Concrete results, adapters, executors and operating systems, most of
    them those of the test suite; the statements below are instantiated
    on them. *)

Definition r_retried : AgentResult :=
  {| agent_name := lit "test"; output := lit "ok"; success := true;
     returncode := 0; stderr := []; duration_seconds := 0;
     rate_limited := false; retries := 2; metadata := [] |}.

Definition r_timed_out : AgentResult :=
  AgentResult_init (lit "test") [] false 0 (lit "Agent timed out after 300s").

Definition r_refused : AgentResult :=
  AgentResult_init (lit "gemini") [] false 1 (lit "Connection refused").

Definition r_limited_failure : AgentResult :=
  {| agent_name := lit "test"; output := []; success := false;
     returncode := 0; stderr := []; duration_seconds := 0;
     rate_limited := true; retries := 0; metadata := [] |}.

(** A successful result that carries the rate-limit flag, and a failure
    whose error text says timeout in other words than the canonical
    ones. *)
Definition r_limited_success : AgentResult :=
  {| agent_name := lit "test"; output := lit "ok"; success := true;
     returncode := 0; stderr := []; duration_seconds := 0;
     rate_limited := true; retries := 0; metadata := [] |}.

Definition r_timeout_word : AgentResult :=
  AgentResult_init (lit "gemini") [] false 1 (lit "Connection timeout").

Definition claude_adapter : AgentAdapter :=
  {| kind := Claude; binary_path := lit "/usr/bin/claude"; timeout := 30;
     auto_approve := true; default_model := None; extra_args := [] |}.

Definition gemini_adapter : AgentAdapter :=
  {| kind := Gemini; binary_path := lit "/usr/local/bin/gemini";
     timeout := 30; auto_approve := true; default_model := None;
     extra_args := [] |}.

Definition codex_adapter : AgentAdapter :=
  {| kind := Codex; binary_path := lit "/usr/local/bin/codex";
     timeout := 30; auto_approve := true; default_model := None;
     extra_args := [] |}.

(** Bytes that are no UTF-8, around the text [Hi]. *)
Definition invalid_utf8 : bytes :=
  [Byte.xff; Byte.x48; Byte.x69; Byte.xe2; Byte.x82].

(** The scenarios of the tests of the executor. *)
Definition world0 : World :=
  {| now := 0; spawned := []; slept := []; calls := [] |}.


Definition limited_429 : ProcOutcome :=
  Exited (blit "") (blit "Error: 429 Too Many Requests") 1.




(** Every process is rate-limited. *)
Definition os_all_limited : OS := fun _ _ _ => (limited_429, 1 # 10).






(** Keyword arguments that refuse approval and name a model. *)
Definition kw_refuse_with_model : Kwargs :=
  {| kw_json_output := false; kw_model := Some (lit "o3");
     kw_auto_approve := Some false; kw_system_prompt := None;
     kw_max_turns := None |}.

(** A Codex adapter whose configured extra arguments name a model. *)
Definition codex_extra_model : AgentAdapter :=
  {| kind := Codex; binary_path := lit "/usr/local/bin/codex";
     timeout := 30; auto_approve := true; default_model := None;
     extra_args := [lit "-m"; lit "o3"] |}.

(** The three adapters of the tests, Claude being the primary. *)
Definition three_adapters : dict AgentAdapter :=
  [(lit "claude", claude_adapter); (lit "gemini", gemini_adapter);
   (lit "codex", codex_adapter)].

Definition default_config : Config.AppConfig :=
  {| Config.primary := lit "claude"; Config.parallel_timeout := 600;
     Config.json_output := true; Config.max_retries := 3;
     Config.retry_base_delay := 5; Config.retry_max_delay := 60;
     Config.agents := [] |}.

Definition claude_orchestrator : Orchestrator.t :=
  Orchestrator.init (lit "claude") three_adapters
    (AgentExecutor_init three_adapters (Some default_config))
    default_config None.

(** A [bytes] literal in which [~] stands for a double quote. *)
Definition blit_q (s : string) : bytes :=
  List.map (fun b => if Byte.eqb b Byte.x7e then Byte.x22 else b) (blit s).

(** A plan that does not delegate and whose subtasks are null, as the
    primary prints it and as the JSON library reads it. *)
Definition null_subtasks_text : string :=
  "{~delegate~: false, ~reasoning~: ~Simple task~, ~subtasks~: null, ~self_task~: null}".

Definition null_subtasks_plan : json :=
  JDict [(lit "delegate", JBool false); (lit "reasoning", JStr (lit "Simple task"));
         (lit "subtasks", JNull); (lit "self_task", JNull)].

Definition loads_null_subtasks : JsonLoader :=
  fun text =>
    if pystr_eqb text (lit_q null_subtasks_text)
    then inl null_subtasks_plan
    else inr (lit "Expecting value").

(** Every process prints that plan and exits with 0. *)
Definition os_null_subtasks : OS :=
  fun _ _ _ => (Exited (blit_q null_subtasks_text) (blit "") 0, 1 # 10).

(** The wordings the specification names for the nine patterns. *)
Definition RATE_LIMIT_PHRASES : list pystr :=
  [lit "rate limit"; lit "too many requests"; lit "HTTP 429";
   lit "quota exceeded"; lit "resource exhausted"; lit "overloaded";
   lit "retry-after"; lit "tokens-per-minute"; lit "requests-per-minute"].

(** A result whose output has 600 characters. *)
Definition r_long_output : AgentResult :=
  AgentResult_init (lit "test") (repeat 120%N 600) true 0 [].

(** A pattern none of whose positions accepts a line feed. *)
Fixpoint newline_free (r : regex) : bool :=
  match r with
  | Empty => true
  | Eps => true
  | Chr (CLit p) => negb (N.eqb p 10)
  | Chr CDot => true
  | Chr CColonSpace => false
  | Chr CDigit => true
  | Cat a b => newline_free a && newline_free b
  | Alt a b => newline_free a && newline_free b
  | Star a => newline_free a
  end.

(** A text without whitespace at either end. *)
Definition trimmed (s : pystr) : Prop :=
  stops isspace s /\ stops isspace (rev s).

(** Keyword arguments that leave approval and model to the adapter. *)
Definition kw_defaults_with_turns : Kwargs :=
  {| kw_json_output := true; kw_model := Some []; kw_auto_approve := None;
     kw_system_prompt := Some (lit "Be brief"); kw_max_turns := Some 5%Z |}.

(** A Gemini adapter configured with a model and without approval. *)
Definition gemini_configured : AgentAdapter :=
  {| kind := Gemini; binary_path := lit "/usr/local/bin/gemini";
     timeout := 30; auto_approve := false;
     default_model := Some (lit "gemini-pro");
     extra_args := [lit "--sandbox"] |}.




(** The entry [d] of a plan asks for the task [(agent, task_prompt)] and
    [_build_dispatch_tasks] lets it through. *)
Definition dispatchable (o : Orchestrator.t) (d : dict json)
    (agent task_prompt : pystr) : Prop :=
  get_or d (lit "agent") (JStr []) = JStr agent
  /\ dict_get d (lit "prompt") = Some (JStr task_prompt)
  /\ strip task_prompt <> []
  /\ dict_get (Orchestrator.adapters o) agent <> None
  /\ ~ (Orchestrator._primary_is_coordinator_only o = true
        /\ agent = Orchestrator.primary o).

(** An entry of a plan that is a dictionary whose [agent], if it has one,
    is no list and no dictionary. *)
Definition plain_subtask (s : json) : Prop :=
  match s with
  | JDict d =>
      match get_or d (lit "agent") (JStr []) with
      | JList _ | JDict _ => False
      | _ => True
      end
  | _ => False
  end.

(** Subtasks of a plan: one for a worker, one for the primary, one with a
    blank prompt, one for an agent that is not installed, one without
    agent. *)
Definition mixed_subtasks : list json :=
  [ JDict [(lit "agent", JStr (lit "gemini"));
           (lit "prompt", JStr (lit " Search the web "))];
    JDict [(lit "agent", JStr (lit "claude"));
           (lit "prompt", JStr (lit "Write the plan"))];
    JDict [(lit "agent", JStr (lit "codex")); (lit "prompt", JStr (lit "  "))];
    JDict [(lit "agent", JStr (lit "copilot"));
           (lit "prompt", JStr (lit "Review"))];
    JDict [(lit "prompt", JStr (lit "Anything"))] ].







(* ================================================================== *)
(** * core/comparator.py                                               *)
(* ================================================================== *)

(** [key in d]. *)
Definition dict_mem {V : Type} (d : dict V) (key : pystr) : bool :=
  match dict_get d key with
  | Some _ => true
  | None => false
  end.

Module Comparator.

Record t := mk {
  adapters : dict AgentAdapter;
  executor : AgentExecutor
}.


End Comparator.

(* ================================================================== *)
(** * models/config.py, adapters/detector.py, cli/orchestrate_cmd.py   *)
(* ================================================================== *)

(** [AgentConfig()]: the defaults of the fields. *)
Definition AgentConfig_default : Config.AgentConfig :=
  {| Config.binary_path := None; Config.default_model := None;
     Config.auto_approve := true; Config.timeout := 300;
     Config.max_turns := None; Config.extra_args := [] |}.

(** [AppConfig.get_agent_config]. *)
Definition get_agent_config (config : Config.AppConfig) (name : pystr)
    : Config.AgentConfig :=
  get_or (Config.agents config) name AgentConfig_default.

(** [d[key] = v]: the value of a key already there is replaced where it
    stands, a new key comes last. *)
Fixpoint dict_set {V : Type} (d : dict V) (key : pystr) (v : V) : dict V :=
  match d with
  | [] => [(key, v)]
  | (k, x) :: rest =>
      if pystr_eqb k key then (k, v) :: rest
      else (k, x) :: dict_set rest key v
  end.

Module Detector.

(** The dataclass [DetectedAgent]. *)
Record DetectedAgent := mk {
  name : pystr;
  binary_path : pystr;
  version : pystr;
  display_name : pystr;
  provider : pystr;
  available : bool
}.

(** An entry of [AgentDetector.KNOWN_AGENTS]. *)
Record KnownAgent := mkKnown {
  binary : pystr;
  version_cmd : list pystr;
  version_pattern : pystr;
  known_display_name : pystr;
  known_provider : pystr
}.

Definition KNOWN_AGENTS : dict KnownAgent :=
  [(lit "claude",
    mkKnown (lit "claude") [lit "claude"; lit "--version"]
      (lit "(\d+\.\d+\.\d+)") (lit "Claude Code") (lit "Anthropic"));
   (lit "gemini",
    mkKnown (lit "gemini") [lit "gemini"; lit "--version"]
      (lit "(\d+\.\d+\.\d+)") (lit "Gemini CLI") (lit "Google"));
   (lit "codex",
    mkKnown (lit "codex") [lit "codex"; lit "--version"]
      (lit "(\d+\.\d+\.\d+)") (lit "Codex CLI") (lit "OpenAI"))].

(** What the detector reads of the machine: [shutil.which] on a binary
    name, and how [_get_version] ends for a known agent, with the version
    it extracts or [unknown], or with an exception it does not catch. *)
Record Env := mkEnv {
  which : pystr -> option pystr;
  _get_version : KnownAgent -> Outcome pystr
}.

(** [AgentDetector._detect_one]. *)
Definition _detect_one (env : Env) (name path : pystr) (info : KnownAgent)
    : Outcome DetectedAgent :=
  match _get_version env info with
  | Return version =>
      Return (mk name path version (known_display_name info)
                (known_provider info) true)
  | Raise e => Raise e
  end.

(** [AgentDetector.detect_all]: the coroutines of the agents found on the
    path, their outcomes as gathered, and the dictionary of those that are
    a [DetectedAgent]. *)
Definition detect_all (env : Env) : dict DetectedAgent :=
  let tasks :=
    flat_map
      (fun item =>
         match which env (binary (snd item)) with
         | Some ((_ :: _) as path) => [_detect_one env (fst item) path (snd item)]
         | _ => []
         end) KNOWN_AGENTS in
  fold_left
    (fun results agent =>
       match agent with
       | Return a => dict_set results (name a) a
       | Raise _ => results
       end) tasks [].

End Detector.


Definition ADAPTER_CLASSES : dict AgentKind :=
  [(lit "claude", Claude); (lit "gemini", Gemini); (lit "codex", Codex)].

(** The adapter the loop of [_build_adapters] makes for one detected
    agent; [a or b] on the configured and the detected path. *)
Definition adapter_for (cls : AgentKind) (agent_cfg : Config.AgentConfig)
    (agent : Detector.DetectedAgent) : AgentAdapter :=
  {| kind := cls;
     binary_path :=
       match Config.binary_path agent_cfg with
       | Some ((_ :: _) as p) => p
       | _ => Detector.binary_path agent
       end;
     timeout := Config.timeout agent_cfg;
     auto_approve := Config.auto_approve agent_cfg;
     default_model := Config.default_model agent_cfg;
     extra_args := Config.extra_args agent_cfg |}.

(** [_build_adapters]. *)
Definition _build_adapters (detected : dict Detector.DetectedAgent)
    (config : Config.AppConfig) : dict AgentAdapter :=
  fold_left
    (fun adapters item =>
       match dict_get ADAPTER_CLASSES (fst item) with
       | None => adapters
       | Some cls =>
           dict_set adapters (fst item)
             (adapter_for cls (get_agent_config config (fst item)) (snd item))
       end)
    detected [].

(** Two configurations of an agent that differ at most in [max_turns]. *)
Definition same_but_max_turns (a b : Config.AgentConfig) : Prop :=
  Config.binary_path a = Config.binary_path b
  /\ Config.default_model a = Config.default_model b
  /\ Config.auto_approve a = Config.auto_approve b
  /\ Config.timeout a = Config.timeout b
  /\ Config.extra_args a = Config.extra_args b.

(** A detection that found Codex, a tool without adapter class, and
    Claude, in this order; a configuration that moves the Claude binary. *)
Definition detected_three : dict Detector.DetectedAgent :=
  [(lit "codex",
    Detector.mk (lit "codex") (lit "/usr/bin/codex") (lit "0.1.0")
      (lit "Codex CLI") (lit "OpenAI") true);
   (lit "copilot",
    Detector.mk (lit "copilot") (lit "/usr/bin/copilot") (lit "unknown")
      (lit "Copilot") (lit "GitHub") true);
   (lit "claude",
    Detector.mk (lit "claude") (lit "/usr/bin/claude") (lit "1.0.3")
      (lit "Claude Code") (lit "Anthropic") true)].

Definition config_moved_claude : Config.AppConfig :=
  {| Config.primary := lit "claude"; Config.parallel_timeout := 600;
     Config.json_output := true; Config.max_retries := 3;
     Config.retry_base_delay := 5; Config.retry_max_delay := 60;
     Config.agents :=
       [(lit "claude",
         {| Config.binary_path := Some (lit "/opt/claude");
            Config.default_model := None; Config.auto_approve := false;
            Config.timeout := 120; Config.max_turns := Some 15%Z;
            Config.extra_args := [] |})] |}.

(* ================================================================== *)
(** * output/formatters.py                                             *)
(* ================================================================== *)

(** The style [format_comparison_table] gives the status cell of a row,
    from the label of the result. *)
Definition comparison_status_style (label : pystr) : pystr :=
  if startswith (lit "SUCCESS") label then lit "status.success"
  else if pystr_eqb label (lit "RATE_LIMITED") then lit "status.rate_limited"
  else if pystr_eqb label (lit "TIMEOUT") then lit "status.timeout"
  else if pystr_eqb label (lit "FAILED") then lit "status.failed"
  else lit "dim".

(** The text of the output cell of a row. *)
Definition comparison_output_text (r : AgentResult) : pystr :=
  let output_text :=
    match output r with
    | _ :: _ => firstn 500 (output r)
    | [] => firstn 200 (stderr r)
    end in
  if (500 <? List.length (output r))%nat then output_text ++ lit "..."
  else output_text.

(** The border style [format_agent_result] gives the panel of a result,
    and the body of the panel. *)
Definition panel_border_style (label : pystr) : pystr :=
  if startswith (lit "SUCCESS") label then lit "green"
  else if pystr_eqb label (lit "RATE_LIMITED") then lit "#ff8800"
  else if pystr_eqb label (lit "TIMEOUT") then lit "yellow"
  else if pystr_eqb label (lit "FAILED") then lit "red"
  else lit "grey".

Definition panel_body (r : AgentResult) : pystr :=
  match output r with
  | _ :: _ => output r
  | [] =>
      match stderr r with
      | _ :: _ => stderr r
      | [] => lit "[dim]No output[/dim]"
      end
  end.

(** A failed result without output and with a long error text. *)
Definition r_long_stderr : AgentResult :=
  AgentResult_init (lit "test") [] false 1 (repeat 101%N 300).



(** What [detect_all] makes of one known agent: the detected agent, or
    nothing when the binary is not on the path or the detection of the
    version ends in an exception. *)
Definition detected_as (env : Detector.Env) (name : pystr)
    (info : Detector.KnownAgent) : option Detector.DetectedAgent :=
  match Detector.which env (Detector.binary info) with
  | Some ((_ :: _) as path) =>
      match Detector._detect_one env name path info with
      | Return a => Some a
      | Raise _ => None
      end
  | _ => None
  end.




(* ================================================================== *)
(** * cli/run_cmd.py                                                   *)
(* ================================================================== *)



(** A machine with Gemini and Codex on the path, and one with nothing. *)
Definition env_gemini_codex : Detector.Env :=
  {| Detector.which :=
       fun b =>
         if pystr_eqb b (lit "gemini") then Some (lit "/usr/bin/gemini")
         else if pystr_eqb b (lit "codex") then Some (lit "/usr/bin/codex")
         else None;
     Detector._get_version := fun _ => Return (lit "1.2.3") |}.


(* ================================================================== *)
(** * cli/app.py                                                       *)
(* ================================================================== *)

Definition is_flag (arg : pystr) : bool := startswith (lit "--") arg.

(** The loop of [NeuronGroup.parse_args] from index [i] on, over the
    arguments [args[i:]]: the prompt parts and the remaining arguments it
    appends. *)
Fixpoint split_args (args : list pystr) : list pystr * list pystr :=
  match args with
  | [] => ([], [])
  | arg :: rest =>
      if is_flag arg then
        match rest with
        | value :: rest' =>
            if negb (is_flag value) then
              let (prompt_parts, remaining) := split_args rest' in
              (prompt_parts, arg :: value :: remaining)
            else
              let (prompt_parts, remaining) := split_args rest in
              (prompt_parts, arg :: remaining)
        | [] => ([], [arg])
        end
      else
        let (prompt_parts, remaining) := split_args rest in
        (arg :: prompt_parts, remaining)
  end.

(** [NeuronGroup.parse_args]: the prompt it stores in the parameters of
    the context, if any, and the arguments it hands to the parser of
    Click; [commands] are the names of the registered subcommands. *)
Definition parse_args (commands : list pystr) (args : list pystr)
    : option pystr * list pystr :=
  match args with
  | first :: _ =>
      if existsb (pystr_eqb first) commands then (None, args)
      else if match args with
              | [only] => pystr_eqb only (lit "--tui") || is_flag only
              | _ => false
              end
      then (None, args)
      else
        let (prompt_parts, remaining) := split_args args in
        (match prompt_parts with
         | [] => None
         | _ :: _ => Some (join (lit " ") prompt_parts)
         end, remaining)
  | [] => (None, args)
  end.

(** An argument with the one before it, the first one with the empty
    string. *)
Definition with_previous (args : list pystr) : list (pystr * pystr) :=
  combine ([] :: args) args.

(** An argument that is no flag and does not come right after one. *)
Definition prompt_word (pc : pystr * pystr) : bool :=
  negb (is_flag (snd pc)) && negb (is_flag (fst pc)).

Definition SUBCOMMANDS : list pystr :=
  [lit "run"; lit "compare"; lit "status"; lit "config"].


(* ================================================================== *)
(** * Properties                                                       *)
(* ================================================================== *)

Unset Implicit Arguments.

(** ** Text *)

Lemma startswith_spec (p s : pystr) :
  startswith p s = true <-> exists suf, s = p ++ suf.
Proof.
  revert s; induction p as [|a p IH]; intros s; simpl.
  - split; [intros _; now exists s | reflexivity].
  - destruct s as [|b s].
    + split; [discriminate | intros [suf H]; discriminate].
    + rewrite andb_true_iff, N.eqb_eq, IH. split.
      * intros [-> [suf ->]]. now exists suf.
      * intros [suf H]. injection H as -> ->. split; [reflexivity | now exists suf].
Qed.

Lemma contains_spec (needle hay : pystr) :
  contains needle hay = true <-> substring needle hay.
Proof.
  unfold substring. induction hay as [|c t IH]; simpl.
  - rewrite orb_false_r, startswith_spec. split.
    + intros [suf H]. now exists [], suf.
    + intros [pre [suf H]]. destruct pre; [now exists suf | discriminate].
  - rewrite orb_true_iff, startswith_spec, IH. split.
    + intros [[suf H] | [pre [suf H]]].
      * now exists [], suf.
      * exists (c :: pre), suf. now rewrite H.
    + intros [[|c' pre] [suf H]].
      * left. now exists suf.
      * right. injection H as _ H. now exists pre, suf.
Qed.

Lemma contains_false (needle hay : pystr) :
  contains needle hay = false <-> ~ substring needle hay.
Proof.
  rewrite <- contains_spec. destruct (contains needle hay); split; intros H;
    try reflexivity; try discriminate; try (intros ?; discriminate).
  now elim H.
Qed.

Lemma lower_app (a b : pystr) : lower (a ++ b) = lower a ++ lower b.
Proof. apply flat_map_app. Qed.

(** Lowering keeps a needle that is already in lower case. *)
Lemma substring_lower (needle hay : pystr) :
  lower needle = needle -> substring needle hay ->
  substring needle (lower hay).
Proof.
  intros Hn [pre [suf ->]]. exists (lower pre), (lower suf).
  now rewrite !lower_app, Hn.
Qed.

(** ** The status label *)

(** C1, as amended.  The label follows the flags in this order: a
    successful result is SUCCESS, with the number of retries when there
    were some (2 retries give the text with 2x), whatever its rate-limit
    flag; an unsuccessful rate-limited result is RATE_LIMITED; an
    unsuccessful result that is not rate-limited and whose error text
    contains the canonical timed-out wording is TIMEOUT; an unsuccessful
    result that is not rate-limited and whose lowered error text contains
    neither that wording nor the word timeout is FAILED. *)
Theorem status_label_table (r : AgentResult) :
  (success r = true -> (0 < retries r)%Z ->
   status_label r
   = lit "SUCCESS (retried " ++ str_of_int (retries r) ++ lit "x)")
  /\ (success r = true -> retries r = 2%Z ->
      status_label r = lit "SUCCESS (retried 2x)")
  /\ (success r = true -> retries r = 0%Z -> status_label r = lit "SUCCESS")
  /\ (success r = false -> rate_limited r = true ->
      status_label r = lit "RATE_LIMITED")
  /\ (success r = false -> rate_limited r = false ->
      substring (lit "timed out") (stderr r) ->
      status_label r = lit "TIMEOUT")
  /\ (success r = false -> rate_limited r = false ->
      ~ substring (lit "timed out") (lower (stderr r)) ->
      ~ substring (lit "timeout") (lower (stderr r)) ->
      status_label r = lit "FAILED").
Proof.
  unfold status_label. repeat split.
  - intros -> H. apply Z.ltb_lt in H. now rewrite H.
  - intros -> ->. reflexivity.
  - intros -> ->. reflexivity.
  - intros -> ->. reflexivity.
  - intros -> -> H.
    apply (substring_lower (lit "timed out")) in H; [|reflexivity].
    apply contains_spec in H. now rewrite H.
  - intros -> -> H1 H2.
    apply contains_false in H1, H2. now rewrite H1, H2.
Qed.

Lemma status_label_table_witness :
  status_label r_retried = lit "SUCCESS (retried 2x)"
  /\ status_label r_limited_failure = lit "RATE_LIMITED"
  /\ status_label r_timed_out = lit "TIMEOUT"
  /\ status_label r_refused = lit "FAILED".
Proof.
  split; [|split; [|split]].
  - apply (status_label_table r_retried); reflexivity.
  - apply (status_label_table r_limited_failure); reflexivity.
  - apply (status_label_table r_timed_out); try reflexivity.
    apply contains_spec. reflexivity.
  - apply (status_label_table r_refused); try reflexivity;
      apply contains_false; reflexivity.
Defined.

(** C1 as stated fails twice: [rate_limited] does not decide the label of
    a successful result, and an unsuccessful result without the canonical
    wording is not always FAILED. *)
Lemma status_label_table_counterexample :
  (rate_limited r_limited_success = true
   /\ status_label r_limited_success <> lit "RATE_LIMITED")
  /\ (success r_timeout_word = false
      /\ rate_limited r_timeout_word = false
      /\ ~ substring (lit "timed out") (stderr r_timeout_word)
      /\ status_label r_timeout_word <> lit "FAILED").
Proof.
  split; [split; [reflexivity | discriminate] |].
  repeat split; try discriminate.
  apply contains_false. reflexivity.
Qed.

(** C9.  For an unsuccessful result that is not rate-limited, the label is
    TIMEOUT exactly when the lowered error text contains [timed out] or
    [timeout], and FAILED otherwise; so the word [timeout] alone, without
    the canonical wording, gives TIMEOUT and not FAILED. *)
Theorem status_label_timeout_iff (r : AgentResult) :
  success r = false -> rate_limited r = false ->
  (status_label r = lit "TIMEOUT"
   <-> substring (lit "timed out") (lower (stderr r))
       \/ substring (lit "timeout") (lower (stderr r)))
  /\ (status_label r <> lit "TIMEOUT" -> status_label r = lit "FAILED")
  /\ (substring (lit "timeout") (lower (stderr r)) ->
      ~ substring (lit "timed out") (lower (stderr r)) ->
      status_label r = lit "TIMEOUT" /\ status_label r <> lit "FAILED").
Proof.
  intros Hs Hr. unfold status_label. rewrite Hs, Hr.
  rewrite <- !contains_spec.
  destruct (contains (lit "timed out") (lower (stderr r)));
    destruct (contains (lit "timeout") (lower (stderr r))); simpl;
    repeat split; intros; try tauto; try discriminate;
    try (left; reflexivity); try (right; reflexivity).
  all: try (destruct H; discriminate).
  all: try (exfalso; apply H; reflexivity).
Qed.

Lemma status_label_timeout_iff_witness :
  status_label r_timeout_word = lit "TIMEOUT"
  /\ status_label r_timeout_word <> lit "FAILED".
Proof.
  apply (status_label_timeout_iff r_timeout_word); try reflexivity.
  - apply contains_spec. reflexivity.
  - apply contains_false. reflexivity.
Defined.

(** ** Regular expressions: the matcher decides the language *)

Lemma matches_Empty (s : pystr) : ~ matches Empty s.
Proof. intros H; inversion H. Qed.

Lemma matches_Eps (s : pystr) : matches Eps s <-> s = [].
Proof. split; [intros H; now inversion H | intros ->; constructor]. Qed.

Lemma matches_Chr (k : cclass) (s : pystr) :
  matches (Chr k) s <-> exists c, s = [c] /\ accepts k c = true.
Proof.
  split.
  - intros H; inversion H; subst. eauto.
  - intros [c [-> H]]. now constructor.
Qed.

Lemma matches_Cat (a b : regex) (s : pystr) :
  matches (Cat a b) s
  <-> exists s1 s2, s = s1 ++ s2 /\ matches a s1 /\ matches b s2.
Proof.
  split.
  - intros H; inversion H; subst. eauto.
  - intros [s1 [s2 [-> [H1 H2]]]]. now constructor.
Qed.

Lemma matches_Alt (a b : regex) (s : pystr) :
  matches (Alt a b) s <-> matches a s \/ matches b s.
Proof.
  split.
  - intros H; inversion H; subst; auto.
  - intros [H | H]; [now apply MAltL | now apply MAltR].
Qed.

Lemma matches_Star_cons (a : regex) (c : pychar) (s : pystr) :
  matches (Star a) (c :: s)
  <-> exists s1 s2,
        s = s1 ++ s2 /\ matches a (c :: s1) /\ matches (Star a) s2.
Proof.
  split.
  - intros H. remember (Star a) as r eqn:Er. remember (c :: s) as u eqn:Eu.
    revert s Eu. induction H as [| | | | | |a' s1 s2 H1 _ H2 IH2];
      intros s0 Eu; try discriminate.
    injection Er as ->. destruct s1 as [|c1 s1].
    + simpl in Eu. now apply IH2.
    + simpl in Eu. injection Eu as -> <-. eauto.
  - intros [s1 [s2 [-> [H1 H2]]]].
    change (c :: s1 ++ s2) with ((c :: s1) ++ s2). now constructor.
Qed.

Lemma nullable_spec (r : regex) : nullable r = true <-> matches r [].
Proof.
  induction r as [| |k|a IHa b IHb|a IHa b IHb|a IHa]; simpl.
  - split; [discriminate | intros H; inversion H].
  - split; [constructor | reflexivity].
  - split; [discriminate | intros H; inversion H].
  - rewrite andb_true_iff, IHa, IHb, matches_Cat. split.
    + intros [H1 H2]. now exists [], [].
    + intros [s1 [s2 [E [H1 H2]]]]. symmetry in E.
      apply app_eq_nil in E as [-> ->]. now split.
  - now rewrite orb_true_iff, IHa, IHb, matches_Alt.
  - split; [constructor | reflexivity].
Qed.

Lemma cat_spec (a b : regex) (s : pystr) :
  matches (cat a b) s <-> matches (Cat a b) s.
Proof.
  rewrite matches_Cat.
  assert (HE : forall x, matches Empty s
                 <-> exists s1 s2, s = s1 ++ s2 /\ matches x s1
                                   /\ matches Empty s2).
  { intros x. split; [intros H; inversion H |].
    intros [s1 [s2 [_ [_ H]]]]. inversion H. }
  assert (HE' : forall x, matches Empty s
                 <-> exists s1 s2, s = s1 ++ s2 /\ matches Empty s1
                                   /\ matches x s2).
  { intros x. split; [intros H; inversion H |].
    intros [s1 [s2 [_ [H _]]]]. inversion H. }
  assert (HU : matches b s
               <-> exists s1 s2, s = s1 ++ s2 /\ matches Eps s1
                                 /\ matches b s2).
  { split.
    - intros H. exists [], s. repeat split; [constructor | assumption].
    - intros [s1 [s2 [-> [H1 H2]]]]. apply matches_Eps in H1. now subst. }
  destruct a; destruct b; simpl;
    try apply HE; try apply HE'; try apply HU; apply matches_Cat.
Qed.

Lemma alt_spec (a b : regex) (s : pystr) :
  matches (alt a b) s <-> matches (Alt a b) s.
Proof.
  rewrite matches_Alt.
  assert (HL : forall x, matches x s <-> matches Empty s \/ matches x s).
  { intros x. split; [now right | intros [H | H]; [inversion H | assumption]]. }
  assert (HR : forall x, matches x s <-> matches x s \/ matches Empty s).
  { intros x. split; [now left | intros [H | H]; [assumption | inversion H]]. }
  destruct a; destruct b; simpl;
    try apply HL; try apply HR; apply matches_Alt.
Qed.

Lemma deriv_spec (c : pychar) (r : regex) (s : pystr) :
  matches (deriv c r) s <-> matches r (c :: s).
Proof.
  revert s. induction r as [| |k|a IHa b IHb|a IHa b IHb|a IHa];
    intros s; simpl.
  - split; intros H; inversion H.
  - split; intros H; inversion H.
  - rewrite matches_Chr. destruct (accepts k c) eqn:E.
    + rewrite matches_Eps. split.
      * intros ->. now exists c.
      * intros [c' [H _]]. now injection H.
    + split; [intros H; inversion H |].
      intros [c' [H H']]. injection H as <- _. congruence.
  - rewrite alt_spec, matches_Alt, cat_spec, !matches_Cat. split.
    + intros [[s1 [s2 [-> [H1 H2]]]] | H].
      * exists (c :: s1), s2. repeat split; [now apply IHa | assumption].
      * destruct (nullable a) eqn:N; [| inversion H].
        exists [], (c :: s). repeat split;
          [now apply nullable_spec | now apply IHb].
    + intros [[|c1 s1] [s2 [E [H1 H2]]]]; simpl in E.
      * right. apply nullable_spec in H1. rewrite H1. apply IHb. now subst.
      * injection E as <- ->. left. exists s1, s2.
        repeat split; [now apply IHa | assumption].
  - now rewrite alt_spec, !matches_Alt, IHa, IHb.
  - rewrite cat_spec, matches_Cat, matches_Star_cons.
    split; intros [s1 [s2 [E [H1 H2]]]]; exists s1, s2;
      (repeat split; [assumption | now apply IHa | assumption]).
Qed.

Lemma match_prefix_spec (r : regex) (s : pystr) :
  match_prefix r s = true
  <-> exists m suf, s = m ++ suf /\ matches r m.
Proof.
  revert r. induction s as [|c t IH]; intros r; simpl.
  - rewrite orb_false_r, nullable_spec. split.
    + intros H. now exists [], [].
    + intros [m [suf [E H]]]. symmetry in E.
      apply app_eq_nil in E as [-> _]. assumption.
  - rewrite orb_true_iff, nullable_spec, IH. split.
    + intros [H | [m [suf [-> H]]]].
      * now exists [], (c :: t).
      * exists (c :: m), suf. split; [reflexivity | now apply deriv_spec].
    + intros [[|c1 m] [suf [E H]]]; simpl in E.
      * now left.
      * injection E as <- ->. right. exists m, suf.
        split; [reflexivity | now apply deriv_spec].
Qed.

Lemma search_spec (r : regex) (text : pystr) :
  search r text = true <-> found r text.
Proof.
  unfold found. induction text as [|c t IH]; cbn [search].
  - rewrite orb_false_r, match_prefix_spec. split.
    + intros [m [suf [E H]]]. now exists [], m, suf.
    + intros [[|? ?] [m [suf [E H]]]]; [now exists m, suf | discriminate].
  - rewrite orb_true_iff, match_prefix_spec, IH. split.
    + intros [[m [suf [E H]]] | [pre [m [suf [E H]]]]].
      * now exists [], m, suf.
      * exists (c :: pre), m, suf. now rewrite E.
    + intros [[|c1 pre] [m [suf [E H]]]]; simpl in E.
      * left. now exists m, suf.
      * injection E as _ ->. right. now exists pre, m, suf.
Qed.

(** ** Rate-limit detection *)

(** C6, as amended.  [is_rate_limited] is true exactly when some part of
    the text made of stdout, a line feed and stderr is in the language of
    one of the nine patterns; the exit code has no influence. *)
Theorem is_rate_limited_iff (stdout stderr : pystr) (returncode : Z) :
  (is_rate_limited stdout stderr returncode = true
   <-> exists p, In p RATE_LIMIT_PATTERNS
                 /\ found p (stdout ++ [10%N] ++ stderr))
  /\ (forall returncode',
        is_rate_limited stdout stderr returncode'
        = is_rate_limited stdout stderr returncode)
  /\ List.length RATE_LIMIT_PATTERNS = 9%nat.
Proof.
  split; [| split; [reflexivity | reflexivity]].
  unfold is_rate_limited, combined. rewrite existsb_exists.
  split; intros [p [Hin H]]; exists p; (split; [assumption |]);
    now apply search_spec.
Qed.

(** Each wording the specification names is detected, in either case and
    on either stream. *)
Lemma rate_limit_phrases_detected :
  Forall (fun phrase =>
            is_rate_limited phrase [] 0 = true
            /\ is_rate_limited [] (upper phrase) 1 = true)
         RATE_LIMIT_PHRASES.
Proof. repeat constructor. Qed.

(** C6 as stated fails: the plain concatenation of [4] and [29] holds
    [429], the text the source scans has a line feed between them. *)
Lemma is_rate_limited_iff_counterexample :
  (exists p, In p RATE_LIMIT_PATTERNS /\ found p (lit "4" ++ lit "29"))
  /\ is_rate_limited (lit "4") (lit "29") 1 = false.
Proof.
  split; [| reflexivity].
  exists (word (lit "429")). split.
  - simpl. tauto.
  - apply search_spec. reflexivity.
Qed.

(** ** Parsing the output of a process *)

(** C10, as amended.  [parse_output] is defined on all byte strings; its
    result is successful exactly when the exit code is 0 and the result is
    not rate-limited; its output is the trimmed permissive decoding of
    stdout; its error text is the stderr filter of the adapter applied to
    the trimmed permissive decoding of stderr, which is that decoding
    itself for every adapter but the Gemini one. *)
Theorem parse_output_fields (a : AgentAdapter) (stdout stderr_bytes : bytes)
    (rc : Z) :
  let r := parse_output a stdout stderr_bytes rc in
  (success r = true <-> rc = 0%Z /\ rate_limited r = false)
  /\ output r = strip (decode stdout)
  /\ stderr r = _filter_stderr a (strip (decode stderr_bytes))
  /\ (kind a <> Gemini -> stderr r = strip (decode stderr_bytes))
  /\ rate_limited r = is_rate_limited (output r) (stderr r) rc
  /\ returncode r = rc.
Proof.
  simpl. split; [| split; [| split; [| split; [| split]]]]; try reflexivity.
  - rewrite andb_true_iff, Z.eqb_eq, negb_true_iff. reflexivity.
  - intros H. unfold _filter_stderr. destruct (kind a); congruence.
Qed.

Lemma parse_output_fields_witness :
  success (parse_output claude_adapter (blit " Hello! ") (blit "") 0) = true
  /\ stderr (parse_output claude_adapter (blit "") (blit " oops ") 1)
     = lit "oops"
  /\ output (parse_output claude_adapter invalid_utf8 (blit "") 0)
     = [65533; 72; 105; 65533]%N.
Proof.
  split; [| split].
  - apply (parse_output_fields claude_adapter (blit " Hello! ") (blit "") 0).
    split; reflexivity.
  - rewrite (proj1 (proj2 (proj2 (proj2
      (parse_output_fields claude_adapter (blit "") (blit " oops ") 1))))).
    + reflexivity.
    + discriminate.
  - rewrite (proj1 (proj2
      (parse_output_fields claude_adapter invalid_utf8 (blit "") 0))).
    reflexivity.
Defined.

(** C10 as stated fails on the Gemini adapter: a deprecation warning on
    stderr is dropped from the error text. *)
Lemma parse_output_fields_counterexample :
  stderr (parse_output gemini_adapter (blit "")
            (blit "DeprecationWarning: the punycode module is deprecated") 0)
  <> strip (decode
              (blit "DeprecationWarning: the punycode module is deprecated")).
Proof. vm_compute. discriminate. Qed.

(** ** The retry loop *)





Section RetryLoop.

Variables (os : OS) (ex : AgentExecutor) (agent_name : pystr).
Variables (adapter : AgentAdapter) (cmd : list pystr) (total_start : Q).













End RetryLoop.



(** C7.  For an agent name that is not a key of the adapter mapping,
    [run_single] returns at once the failed result of the error
    constructor: not successful, no retries, an error text that names the
    agent; the world is unchanged, so no process was spawned and nothing
    was slept. *)
Theorem run_single_unknown_agent (os : OS) (ex : AgentExecutor)
    (unknown prompt : pystr) (kw : Kwargs) (w : World) :
  dict_get (adapters ex) unknown = None ->
  exists r,
    run_single os ex unknown prompt kw w = (Return r, w)
    /\ success r = false
    /\ retries r = 0%Z
    /\ stderr r = lit "Unknown agent: " ++ unknown
    /\ substring unknown (stderr r)
    /\ agent_name r = unknown
    /\ rate_limited r = false.
Proof.
  intros H. unfold run_single. rewrite H. eexists. split; [reflexivity |].
  simpl. repeat split. exists (lit "Unknown agent: "), [].
  now rewrite app_nil_r.
Qed.







Lemma run_single_unknown_agent_witness :
  exists r,
    run_single os_all_limited (AgentExecutor_init [] None)
      (lit "nonexistent") (lit "test") no_kwargs world0 = (Return r, world0)
    /\ success r = false
    /\ retries r = 0%Z
    /\ stderr r = lit "Unknown agent: nonexistent".
Proof.
  destruct (run_single_unknown_agent os_all_limited (AgentExecutor_init [] None)
              (lit "nonexistent") (lit "test") no_kwargs world0 eq_refl)
    as [r [E [Hs [Hr [He _]]]]].
  exists r. now repeat split.
Defined.



(** ** Running tasks in parallel *)

Lemma gather_length {A : Type} (coros : list (M A)) :
  forall w, List.length (fst (gather coros w)) = List.length coros.
Proof.
  induction coros as [|c rest IH]; intros w; simpl; [reflexivity |].
  destruct (c w) as [o w1]. specialize (IH w1).
  destruct (gather rest w1) as [os w2]. simpl in *. now rewrite IH.
Qed.

Lemma collect_length (tasks : list (pystr * pystr))
    (results : list (Outcome AgentResult)) :
  forall i, List.length (collect tasks i results) = List.length results.
Proof.
  induction results as [|r rest IH]; intros i; simpl; [reflexivity |].
  now rewrite IH.
Qed.




(** ** Building the command *)

Lemma string_of_uint_head (d : Decimal.uint) :
  exists c rest,
    lit (NilZero.string_of_uint d) = c :: rest /\ isdigit c = true.
Proof.
  destruct d; simpl; eexists _, _; split; reflexivity.
Qed.

Lemma digit_not_dash (c : pychar) : isdigit c = true -> N.eqb c 45 = false.
Proof.
  unfold isdigit. rewrite andb_true_iff, !N.leb_le, N.eqb_neq. lia.
Qed.

(** [str(n)] never starts with two dashes. *)
Lemma str_of_int_dashes (n : Z) : starts_dashdash (str_of_int n) = false.
Proof.
  unfold str_of_int. destruct n as [|p|p]; [reflexivity | |].
  - cbn [Z.to_int NilZero.string_of_int].
    destruct (string_of_uint_head (Pos.to_uint p)) as [c [rest [-> Hc]]].
    destruct rest as [|c' rest]; [reflexivity |].
    cbn [starts_dashdash]. now rewrite (digit_not_dash c Hc).
  - cbn [Z.to_int NilZero.string_of_int].
    change (lit (String "-" (NilZero.string_of_uint (Pos.to_uint p))))
      with (45%N :: lit (NilZero.string_of_uint (Pos.to_uint p))).
    destruct (string_of_uint_head (Pos.to_uint p)) as [c [rest [-> Hc]]].
    cbn [starts_dashdash]. rewrite (digit_not_dash c Hc).
    apply andb_false_r.
Qed.

Lemma str_of_int_not_flag (n : Z) (f : pystr) :
  starts_dashdash f = true -> str_of_int n <> f.
Proof.
  intros Hf E. rewrite <- E, str_of_int_dashes in Hf. discriminate.
Qed.

Lemma count_once (pre suf : list pystr) (f m : pystr) :
  ~ In f pre -> ~ In f suf -> m <> f ->
  count_occ pystr_eq_dec (pre ++ f :: m :: suf) f = 1%nat.
Proof.
  intros Hp Hs Hm. rewrite count_occ_app.
  rewrite (proj1 (count_occ_not_In pystr_eq_dec pre f) Hp).
  cbn [count_occ]. destruct (pystr_eq_dec f f) as [_|N]; [| now elim N].
  destruct (pystr_eq_dec m f) as [E|_]; [now elim Hm |].
  now rewrite (proj1 (count_occ_not_In pystr_eq_dec suf f) Hs).
Qed.

(** What is known of a flag that is none of the strings of the caller. *)
Lemma not_caller_string (a : AgentAdapter) (prompt : pystr) (kw : Kwargs)
    (f : pystr) :
  ~ In f (caller_strings a prompt kw) ->
  binary_path a <> f /\ prompt <> f /\ ~ In f (extra_args a)
  /\ kw_model kw <> Some f /\ default_model a <> Some f
  /\ kw_system_prompt kw <> Some f.
Proof.
  unfold caller_strings. intros H.
  repeat split; intros E; apply H; rewrite !in_app_iff;
    try rewrite E; simpl; auto 10.
Qed.

Lemma in_flag_value (f flag : pystr) (v : option pystr) :
  In f (flag_value flag v) -> flag = f \/ v = Some f.
Proof.
  destruct v as [[|c s]|]; simpl; intros H; try contradiction.
  destruct H as [H | [H | []]]; [now left | right; now rewrite H].
Qed.

Lemma in_str_or (a b : option pystr) (f : pystr) :
  str_or a b = Some f -> a = Some f \/ b = Some f.
Proof. unfold str_or. destruct (truthy_str a); auto. Qed.

Ltac split_in H :=
  repeat (apply in_app_iff in H as [H | H]).

Ltac close_in H :=
  first
    [ contradiction
    | discriminate
    | match type of H with
      | In _ (flag_value _ _) =>
          apply in_flag_value in H as [H | H];
          [ discriminate
          | try (apply in_str_or in H as [H | H]); congruence ]
      | In _ (if ?b then _ else _) =>
          destruct b; simpl in H; intuition (discriminate || congruence)
      | In _ _ => simpl in H; intuition (discriminate || congruence)
      end ].

(** C8, as amended.  For each of the three adapters, when none of the
    strings the caller and the configuration supply (binary path, prompt,
    extra arguments, model, system prompt) is itself the flag in question:
    [build_command] with [auto_approve=false] gives a list without the
    approval flag of the agent, whatever the configured default; and
    [build_command] with a non-empty model gives a list in which the model
    flag occurs exactly once, followed by that model. *)
Theorem build_command_flags (a : AgentAdapter) (prompt : pystr)
    (kw : Kwargs) :
  let cmd := build_command a prompt kw in
  (kw_auto_approve kw = Some false ->
   ~ In (approval_flag (kind a)) (caller_strings a prompt kw) ->
   ~ In (approval_flag (kind a)) cmd)
  /\ (forall m,
        kw_model kw = Some m -> m <> [] ->
        ~ In (model_flag (kind a)) (caller_strings a prompt kw) ->
        count_occ pystr_eq_dec cmd (model_flag (kind a)) = 1%nat
        /\ exists pre suf, cmd = pre ++ model_flag (kind a) :: m :: suf).
Proof.
  intros cmd. subst cmd. split.
  - intros Hk Hc H.
    apply not_caller_string in Hc as [Hb [Hp [He [Hm [Hd Hs]]]]].
    unfold build_command in H.
    destruct (kind a); cbn [approval_flag] in *;
      unfold ClaudeAdapter_build_command, CodexAdapter_build_command,
        GeminiAdapter_build_command, effective_approve in H;
      rewrite Hk in H; split_in H; try close_in H.
    destruct (truthy_int (kw_max_turns kw)); [| contradiction].
    destruct H as [H | [H | []]]; [discriminate |].
    now apply (str_of_int_not_flag _ (lit "--permission-mode")) in H.
  - intros m Hm Hne Hc.
    assert (Hv : forall flag,
              flag_value flag (str_or (kw_model kw) (default_model a))
              = [flag; m]).
    { intros flag. unfold str_or. rewrite Hm.
      destruct m; [now elim Hne | reflexivity]. }
    apply not_caller_string in Hc as [Hb [Hp [He [Hm' [Hd Hs]]]]].
    assert (Hmf : m <> model_flag (kind a)) by congruence.
    unfold build_command.
    destruct (kind a); cbn [model_flag] in *;
      unfold ClaudeAdapter_build_command, CodexAdapter_build_command,
        GeminiAdapter_build_command; rewrite Hv.
    + set (pre := [binary_path a; lit "-p"; prompt]
                  ++ (if kw_json_output kw
                      then [lit "--output-format"; lit "json"] else [])).
      match goal with
      | |- context [[lit "--model"; m] ++ ?s] => set (suf := s)
      end.
      replace (_ ++ _ ++ [lit "--model"; m] ++ suf)
        with (pre ++ lit "--model" :: m :: suf)
        by (unfold pre; now rewrite <- !app_assoc).
      split; [| now exists pre, suf].
      apply count_once; [| | exact Hmf]; intros H.
      * unfold pre in H. split_in H; close_in H.
      * unfold suf in H. split_in H; try close_in H.
        destruct (truthy_int (kw_max_turns kw)); [| contradiction].
        destruct H as [H | [H | []]]; [discriminate |].
        now apply (str_of_int_not_flag _ (lit "--model")) in H.
    + set (pre := [binary_path a; lit "exec"]).
      match goal with
      | |- context [[lit "-m"; m] ++ ?s] => set (suf := s)
      end.
      change (pre ++ [lit "-m"; m] ++ suf)
        with (pre ++ lit "-m" :: m :: suf).
      split; [| now exists pre, suf].
      apply count_once; [| | exact Hmf]; intros H.
      * unfold pre in H. close_in H.
      * unfold suf in H. split_in H; close_in H.
    + set (pre := [binary_path a]
                  ++ (if kw_json_output kw
                      then [lit "--output-format"; lit "json"] else [])).
      match goal with
      | |- context [[lit "-m"; m] ++ ?s] => set (suf := s)
      end.
      replace (_ ++ _ ++ [lit "-m"; m] ++ suf)
        with (pre ++ lit "-m" :: m :: suf)
        by (unfold pre; now rewrite <- !app_assoc).
      split; [| now exists pre, suf].
      apply count_once; [| | exact Hmf]; intros H.
      * unfold pre in H. split_in H; close_in H.
      * unfold suf in H. split_in H; close_in H.
Qed.

Lemma build_command_flags_witness :
  ~ In (lit "-y")
       (build_command gemini_adapter (lit "Say hello") kw_refuse_with_model)
  /\ count_occ pystr_eq_dec
       (build_command gemini_adapter (lit "Say hello") kw_refuse_with_model)
       (lit "-m") = 1%nat.
Proof.
  assert (Hy : ~ In (approval_flag (kind gemini_adapter))
                    (caller_strings gemini_adapter (lit "Say hello")
                       kw_refuse_with_model)).
  { simpl. intuition discriminate. }
  assert (Hm : ~ In (model_flag (kind gemini_adapter))
                    (caller_strings gemini_adapter (lit "Say hello")
                       kw_refuse_with_model)).
  { simpl. intuition discriminate. }
  destruct (build_command_flags gemini_adapter (lit "Say hello")
              kw_refuse_with_model) as [H1 H2].
  split.
  - apply H1; [reflexivity | exact Hy].
  - apply (H2 (lit "o3")); [reflexivity | discriminate | exact Hm].
Defined.

(** C8 as stated fails: a prompt that is the approval flag is in the list
    although approval was refused, and extra arguments that name a model
    give a second model pair. *)
Lemma build_command_flags_counterexample :
  In (approval_flag Gemini)
     (build_command gemini_adapter (lit "-y") kw_refuse_with_model)
  /\ build_command codex_extra_model (lit "hi") kw_refuse_with_model
     = [lit "/usr/local/bin/codex"; lit "exec"; lit "-m"; lit "o3";
        lit "-m"; lit "o3"; lit "hi"]
  /\ count_occ pystr_eq_dec
       (build_command codex_extra_model (lit "hi") kw_refuse_with_model)
       (model_flag Codex) = 2%nat.
Proof.
  split; [| split].
  - simpl. tauto.
  - reflexivity.
  - reflexivity.
Qed.

(** ** The orchestrator with a coordinator-only primary *)

(** C3, at the input where the code departs from it: the primary is the
    coordinator-only one, two workers are available, the analysis succeeds
    with a plan whose [delegate] is false and whose [subtasks] is null.
    [run] raises a [TypeError] from the arguments of its log record of the
    plan; the only call it made on the executor is the analysis: no
    dispatch to the workers, no synthesis. *)
Theorem run_null_subtasks_raises :
  exists w',
    Orchestrator.run os_null_subtasks loads_null_subtasks claude_orchestrator
      (lit "Say hello") world0
    = (Raise (Exc (lit "TypeError")
                (lit "object of type 'NoneType' has no len()")), w')
    /\ calls w'
       = [CallSingle (lit "claude")
            (Orchestrator.analysis_prompt claude_orchestrator (lit "Say hello"))
            Orchestrator.json_kwargs]
    /\ Orchestrator._primary_is_coordinator_only claude_orchestrator = true
    /\ Orchestrator._build_worker_fallback_tasks claude_orchestrator
         (lit "Say hello")
       = [(lit "gemini", lit "Say hello"); (lit "codex", lit "Say hello")].
Proof.
  eexists. split; [vm_compute; reflexivity |].
  split; [vm_compute; reflexivity |]. split; reflexivity.
Qed.

(** The executor leaves the record of calls alone. *)
Lemma loop_calls (os : OS) (ex : AgentExecutor) (agent_name : pystr)
    (adapter : AgentAdapter) (cmd : list pystr) (total_start : Q)
    (attempts : list Z) :
  forall (last : option AgentResult) (w : World),
  calls (snd (retry_loop os ex agent_name adapter cmd total_start
                attempts last w)) = calls w.
Proof.
  induction attempts as [|a rest IH]; intros last w.
  - simpl. now destruct last.
  - cbn [retry_loop]. unfold bind at 1.
    destruct ((if (0 <? a)%Z
               then sleep (_compute_delay ex a last adapter)
               else ret tt) w) as [o0 w0] eqn:E0.
    assert (H0 : calls w0 = calls w /\ exists u, o0 = Return u).
    { destruct (0 <? a)%Z; injection E0 as <- <-; simpl;
        (split; [reflexivity | now exists tt]). }
    destruct H0 as [C0 [u ->]].
    unfold bind at 1.
    destruct (_execute_once os agent_name adapter cmd w0) as [o1 w1] eqn:E1.
    assert (C1 : calls w1 = calls w0).
    { revert E1. unfold _execute_once, bind, monotonic, spawn_and_wait.
      destruct (os (List.length (spawned w0)) cmd (timeout adapter)) as [o dt].
      simpl. destruct (result_of_outcome agent_name adapter o);
        simpl; intros E1; injection E1 as _ <-; reflexivity. }
    destruct o1 as [p|e].
    + destruct (negb (rate_limited p)).
      * simpl. now rewrite C1.
      * rewrite IH. now rewrite C1.
    + simpl. now rewrite C1.
Qed.

Lemma run_single_calls (os : OS) (ex : AgentExecutor)
    (agent_name prompt : pystr) (kw : Kwargs) (w : World) :
  calls (snd (run_single os ex agent_name prompt kw w)) = calls w.
Proof.
  unfold run_single. destruct (dict_get (adapters ex) agent_name);
    [| reflexivity].
  unfold bind, monotonic. apply loop_calls.
Qed.

Lemma gather_calls {A : Type} (coros : list (M A)) :
  (forall c, In c coros -> forall w, calls (snd (c w)) = calls w) ->
  forall w, calls (snd (gather coros w)) = calls w.
Proof.
  induction coros as [|c rest IH]; intros H w; simpl; [reflexivity |].
  pose proof (H c (or_introl eq_refl) w) as Hc.
  destruct (c w) as [o w1]. simpl in Hc.
  assert (Hr : calls (snd (gather rest w1)) = calls w1).
  { apply IH. intros c' Hin. apply H. now right. }
  destruct (gather rest w1) as [os w2]. simpl in *. congruence.
Qed.

Lemma run_parallel_calls (os : OS) (ex : AgentExecutor)
    (tasks : list (pystr * pystr)) (kw : Kwargs) (w : World) :
  calls (snd (run_parallel os ex tasks kw w)) = calls w.
Proof.
  unfold run_parallel.
  pose proof (gather_calls
                (List.map (fun t => run_single os ex (fst t) (snd t) kw) tasks))
    as H.
  destruct (gather _ w) as [res w'] eqn:E. simpl.
  change w' with (snd (res, w')). rewrite <- E. apply H.
  intros c Hin w0. apply in_map_iff in Hin as [t [<- _]].
  apply run_single_calls.
Qed.

(** [run_parallel] returns, with one result per task. *)
Lemma run_parallel_returns (os : OS) (ex : AgentExecutor)
    (tasks : list (pystr * pystr)) (kw : Kwargs) (w : World) :
  exists processed w',
    run_parallel os ex tasks kw w = (Return processed, w')
    /\ List.length processed = List.length tasks.
Proof.
  unfold run_parallel.
  pose proof (gather_length
                (List.map (fun t => run_single os ex (fst t) (snd t) kw) tasks)
                w) as Hlen.
  destruct (gather _ w) as [res w'].
  exists (collect tasks 0 res), w'. split; [reflexivity |].
  rewrite collect_length. simpl in Hlen. rewrite Hlen. apply length_map.
Qed.

(** The world with one more recorded call. *)
Lemma record_call_eq (c : ExecutorCall) (w : World) :
  exists w1,
    record_call c w = (Return tt, w1)
    /\ calls w1 = calls w ++ [c] /\ spawned w1 = spawned w
    /\ slept w1 = slept w /\ now w1 = now w.
Proof. eexists. split; [reflexivity |]. now repeat split. Qed.

(** The worker broadcast: a fatal error without workers; otherwise one
    parallel dispatch of the tasks and one call of the primary on the
    synthesis prompt, whose output is returned. *)
Lemma worker_fallback_calls (os : OS) (o : Orchestrator.t) (prompt : pystr)
    (w : World) :
  let tasks := Orchestrator._build_worker_fallback_tasks o prompt in
  (tasks = [] ->
   Orchestrator.worker_fallback os o prompt w = (Raise NO_WORKERS, w))
  /\ (tasks <> [] ->
      exists results out w',
        Orchestrator.worker_fallback os o prompt w = (out, w')
        /\ calls w'
           = calls w
             ++ [CallParallel tasks;
                 CallSingle (Orchestrator.primary o)
                   (Orchestrator._build_synthesis_prompt prompt results)
                   no_kwargs]
        /\ List.length results = List.length tasks
        /\ (forall final, out = Return final ->
            exists r w2 w3,
              run_single os (Orchestrator.executor o) (Orchestrator.primary o)
                (Orchestrator._build_synthesis_prompt prompt results)
                no_kwargs w2 = (Return r, w3)
              /\ final = output r)).
Proof.
  intros tasks. unfold Orchestrator.worker_fallback. fold tasks. split.
  - intros ->. reflexivity.
  - intros Hne. destruct tasks as [|t ts] eqn:Et; [now elim Hne |].
    rewrite <- Et. clear Hne.
    unfold Orchestrator.dispatch_and_synthesize,
      Orchestrator.executor_run_parallel, Orchestrator.executor_run_single.
    unfold bind at 1. unfold bind at 1.
    destruct (record_call_eq (CallParallel tasks) w) as [w1 [-> [C1 _]]].
    pose proof (run_parallel_calls os (Orchestrator.executor o) tasks
                  no_kwargs w1) as C2.
    destruct (run_parallel_returns os (Orchestrator.executor o)
                tasks no_kwargs w1) as [results [w2 [E2 Hlen]]].
    rewrite E2 in C2 |- *. simpl in C2.
    unfold bind at 1. unfold bind at 1.
    destruct (record_call_eq
                (CallSingle (Orchestrator.primary o)
                   (Orchestrator._build_synthesis_prompt prompt results)
                   no_kwargs) w2) as [w3 [-> [C3 _]]].
    pose proof (run_single_calls os (Orchestrator.executor o)
                  (Orchestrator.primary o)
                  (Orchestrator._build_synthesis_prompt prompt results)
                  no_kwargs w3) as C4.
    destruct (run_single os (Orchestrator.executor o) (Orchestrator.primary o)
                (Orchestrator._build_synthesis_prompt prompt results)
                no_kwargs w3) as [[final|e] w4] eqn:E4; simpl in C4.
    + exists results. eexists _, w4. split; [reflexivity |].
      split; [rewrite C4, C3, C2, C1, <- app_assoc; reflexivity |].
      split; [exact Hlen |].
      intros f Hf. injection Hf as <-. now exists final, w3, w4.
    + exists results. eexists _, w4. split; [reflexivity |].
      split; [rewrite C4, C3, C2, C1, <- app_assoc; reflexivity |].
      split; [exact Hlen |]. intros f Hf. discriminate.
Qed.


(** With a coordinator-only primary, a plan that does not delegate and
    whose subtasks have a length leads to the worker broadcast. *)
Lemma run_coordinator_no_delegate (os : OS) (loads : JsonLoader)
    (o : Orchestrator.t) (prompt : pystr) (plan : dict json)
    (w w1 : World) (n : nat) :
  Orchestrator._primary_is_coordinator_only o = true ->
  Orchestrator._analyze os loads o prompt w = (Return plan, w1) ->
  truthy (get_or plan (lit "delegate") (JBool false)) = false ->
  py_len (get_or plan (lit "subtasks") (JList [])) = Return n ->
  Orchestrator.run os loads o prompt w
  = Orchestrator.worker_fallback os o prompt w1.
Proof.
  intros Hc Ha Hd Hl. unfold Orchestrator.run. rewrite Ha.
  unfold Orchestrator.run_plan. unfold bind at 1. rewrite Hl. simpl.
  now rewrite Hd, Hc.
Qed.

(** ** The scanner for the retry-after pattern follows the pattern *)










Lemma fold_case_letter_not_newline (c p : pychar) :
  N.eqb (fold_case c) p = true -> p <> 10%N -> accepts CDot c = true.
Proof.
  intros H Hp. apply N.eqb_eq in H. simpl. apply negb_true_iff, N.eqb_neq.
  intros ->. now apply Hp.
Qed.







(* ================================================================== *)
(** * Further properties of the code                                   *)
(* ================================================================== *)

From Stdlib Require Import Qpower.

(** ** The result model *)

(** X1.  The summary text of a result is never longer than 503
    characters: it is the output itself when that has at most 500
    characters, and otherwise its first 500 characters followed by three
    dots; in both cases it starts as the output does. *)
Theorem truncated_output_bound (r : AgentResult) :
  (List.length (truncated_output r) <= 503)%nat
  /\ ((List.length (output r) <= 500)%nat -> truncated_output r = output r)
  /\ ((500 < List.length (output r))%nat ->
      truncated_output r = firstn 500 (output r) ++ lit "..."
      /\ List.length (truncated_output r) = 503%nat)
  /\ firstn 500 (truncated_output r) = firstn 500 (output r).
Proof.
  unfold truncated_output.
  destruct (Nat.leb_spec (List.length (output r)) 500) as [H | H].
  - split; [lia |]. split; [reflexivity |].
    split; [intros H'; lia | reflexivity].
  - assert (Hl : List.length (firstn 500 (output r)) = 500%nat)
      by (rewrite length_firstn; lia).
    assert (Ht : List.length (firstn 500 (output r) ++ lit "...") = 503%nat)
      by (rewrite length_app, Hl; reflexivity).
    split; [lia |]. split; [intros H'; lia |]. split; [now split |].
    rewrite firstn_app, Hl, Nat.sub_diag, firstn_O, app_nil_r.
    apply firstn_firstn.
Qed.

Lemma truncated_output_bound_witness :
  truncated_output r_retried = lit "ok"
  /\ List.length (truncated_output r_long_output) = 503%nat.
Proof.
  split.
  - apply (proj1 (proj2 (truncated_output_bound r_retried))). simpl. lia.
  - apply (proj1 (proj2 (proj2 (truncated_output_bound r_long_output)))).
    change (output r_long_output) with (repeat 120%N 600).
    rewrite repeat_length. lia.
Defined.

(** ** The delay between retries *)







(** ** Rate-limit detection looks at each stream on its own *)

Lemma newline_free_matches (r : regex) (m : pystr) :
  newline_free r = true -> matches r m -> ~ In 10%N m.
Proof.
  intros Hr Hm. induction Hm as [|k c Hc|a b s t _ IHa _ IHb|a b s _ IH
                                 |a b s _ IH| |a s t _ IHa _ IHb];
    simpl in Hr.
  - intros [].
  - intros [-> | []]. destruct k as [p| | |]; try discriminate.
    unfold accepts in Hc. change (fold_case 10%N) with 10%N in Hc.
    apply N.eqb_eq in Hc. subst p. discriminate.
  - apply andb_true_iff in Hr as [Ha Hb]. rewrite in_app_iff.
    intros [H | H]; [now apply IHa | now apply IHb].
  - apply andb_true_iff in Hr as [Ha Hb]. now apply IH.
  - apply andb_true_iff in Hr as [Ha Hb]. now apply IH.
  - intros [].
  - rewrite in_app_iff. intros [H | H]; [now apply IHa | now apply IHb].
Qed.

(** A part of [a ++ x :: b] that does not hold [x] lies in [a] or in
    [b]. *)
Lemma infix_across {A : Type} (pre m suf a b : list A) (x : A) :
  pre ++ m ++ suf = a ++ x :: b -> ~ In x m ->
  (exists suf', a = pre ++ m ++ suf') \/ (exists pre', b = pre' ++ m ++ suf).
Proof.
  intros E Hx. apply app_eq_app in E as [l [[E1 E2] | [E1 E2]]].
  - destruct l as [|x' l].
    + simpl in E2. destruct m as [|y m].
      * left. exists []. rewrite E1. now rewrite !app_nil_r.
      * injection E2 as -> _. elim Hx. now left.
    + simpl in E2. injection E2 as _ ->. right. now exists l.
  - apply app_eq_app in E2 as [l2 [[E3 E4] | [E3 E4]]].
    + destruct l2 as [|x' l2].
      * left. exists []. rewrite E1, E3. now rewrite !app_nil_r.
      * simpl in E4. injection E4 as <- _. elim Hx. rewrite E3, in_app_iff.
        right. now left.
    + left. exists l2. now rewrite E1, E3.
Qed.

Lemma found_across (r : regex) (a b : pystr) :
  newline_free r = true ->
  found r (a ++ 10%N :: b) <-> found r a \/ found r b.
Proof.
  intros Hr. split.
  - intros [pre [m [suf [E Hm]]]]. symmetry in E.
    destruct (infix_across pre m suf a b 10%N E
                (newline_free_matches r m Hr Hm)) as [[s' ->] | [p' ->]].
    + left. now exists pre, m, s'.
    + right. now exists p', m, suf.
  - intros [[pre [m [suf [-> Hm]]]] | [pre [m [suf [-> Hm]]]]].
    + exists pre, m, (suf ++ 10%N :: b). split; [| exact Hm].
      now rewrite <- !app_assoc.
    + exists (a ++ 10%N :: pre), m, suf. split; [| exact Hm].
      now rewrite <- app_assoc.
Qed.

Lemma found_nil (r : regex) (s : pystr) : found r [] -> found r s.
Proof.
  intros [pre [m [suf [E Hm]]]]. symmetry in E.
  apply app_eq_nil in E as [-> E]. apply app_eq_nil in E as [-> ->].
  now exists [], [], s.
Qed.

(** X4.  Rate-limit detection reads stdout and stderr apart: the result
    is rate-limited exactly when one of the patterns is found in stdout or
    is found in stderr, so it is the disjunction of the detection on each
    stream alone, and wording that is split between the two streams is not
    detected. *)
Theorem is_rate_limited_per_stream (stdout stderr : pystr) (rc : Z) :
  (is_rate_limited stdout stderr rc = true
   <-> exists p, In p RATE_LIMIT_PATTERNS
                 /\ (found p stdout \/ found p stderr))
  /\ is_rate_limited stdout stderr rc
     = is_rate_limited stdout [] rc || is_rate_limited [] stderr rc.
Proof.
  assert (Hall : forall p, In p RATE_LIMIT_PATTERNS -> newline_free p = true).
  { apply Forall_forall. repeat constructor. }
  assert (R : forall a b,
            is_rate_limited a b rc = true
            <-> exists p, In p RATE_LIMIT_PATTERNS
                          /\ (found p a \/ found p b)).
  { intros a b. unfold is_rate_limited, combined. rewrite existsb_exists.
    split; intros [p [Hin H]]; exists p; (split; [exact Hin |]).
    - apply (found_across p a b (Hall p Hin)). now apply search_spec.
    - apply search_spec. now apply (found_across p a b (Hall p Hin)). }
  split; [apply R |].
  apply eq_true_iff_eq. rewrite orb_true_iff, !R. split.
  - intros [p [Hin [H | H]]]; [left | right]; exists p; auto.
  - intros [[p [Hin [H | H]]] | [p [Hin [H | H]]]]; exists p;
      (split; [exact Hin |]); auto using found_nil.
Qed.

Lemma is_rate_limited_per_stream_witness :
  exists p, In p RATE_LIMIT_PATTERNS
            /\ (found p (lit "HTTP 429") \/ found p []).
Proof.
  apply (proj1 (proj1 (is_rate_limited_per_stream (lit "HTTP 429") [] 1))).
  reflexivity.
Defined.

(** ** Trimming and the stderr filter *)

Lemma lstrip_spec (s : pystr) :
  (exists pre, s = pre ++ lstrip s) /\ stops isspace (lstrip s).
Proof.
  induction s as [|c t [[pre IH] Hs]]; simpl.
  - split; [now exists [] | exact I].
  - destruct (isspace c) eqn:Hc.
    + split; [| exact Hs]. exists (c :: pre). simpl. now rewrite <- IH.
    + split; [now exists [] | exact Hc].
Qed.

Lemma lstrip_clean (s : pystr) : stops isspace s -> lstrip s = s.
Proof. destruct s as [|c t]; simpl; [reflexivity |]. now intros ->. Qed.

Lemma lstrip_snoc (l : pystr) (c : pychar) :
  isspace c = false -> exists u, lstrip (l ++ [c]) = u ++ [c].
Proof.
  intros Hc. induction l as [|d l [u IH]]; simpl.
  - rewrite Hc. now exists [].
  - destruct (isspace d); [now exists u |]. now exists (d :: l).
Qed.

Lemma rstrip_spec (s : pystr) :
  (exists suf, s = rstrip s ++ suf) /\ stops isspace (rev (rstrip s)).
Proof.
  unfold rstrip. rewrite rev_involutive.
  destruct (lstrip_spec (rev s)) as [[pre E] Hs]. split; [| exact Hs].
  exists (rev pre). rewrite <- rev_app_distr, <- E. now rewrite rev_involutive.
Qed.

Lemma rstrip_head (s : pystr) : stops isspace s -> stops isspace (rstrip s).
Proof.
  destruct s as [|c t]; [intros _; exact I |]. simpl. intros Hc.
  unfold rstrip. simpl rev.
  destruct (lstrip_snoc (rev t) c Hc) as [u ->].
  rewrite rev_app_distr. exact Hc.
Qed.

Lemma rstrip_clean (s : pystr) : stops isspace (rev s) -> rstrip s = s.
Proof.
  intros H. unfold rstrip. rewrite (lstrip_clean (rev s) H).
  apply rev_involutive.
Qed.

Lemma strip_trimmed (s : pystr) : trimmed (strip s).
Proof.
  unfold trimmed, strip. split.
  - apply rstrip_head, lstrip_spec.
  - apply rstrip_spec.
Qed.

Lemma strip_clean (s : pystr) : trimmed s -> strip s = s.
Proof.
  intros [H1 H2]. unfold strip. rewrite (lstrip_clean s H1).
  now apply rstrip_clean.
Qed.

(** What is in the trimmed text is in the text. *)
Lemma strip_infix (s : pystr) : exists pre suf, s = pre ++ strip s ++ suf.
Proof.
  unfold strip. destruct (lstrip_spec s) as [[pre E] _].
  destruct (rstrip_spec (lstrip s)) as [[suf E'] _].
  exists pre, suf. now rewrite <- E', <- E.
Qed.

Lemma substring_infix (n s pre suf : pystr) :
  substring n s -> substring n (pre ++ s ++ suf).
Proof.
  intros [p [q ->]]. exists (pre ++ p), (q ++ suf).
  now rewrite <- !app_assoc.
Qed.

Lemma substring_strip (n s : pystr) : substring n (strip s) -> substring n s.
Proof.
  intros H. destruct (strip_infix s) as [pre [suf E]]. rewrite E.
  now apply substring_infix.
Qed.

Lemma substring_lower_strip (n s : pystr) :
  substring n (lower (strip s)) -> substring n (lower s).
Proof.
  intros H. destruct (strip_infix s) as [pre [suf E]].
  rewrite E at 1. rewrite !lower_app. now apply substring_infix.
Qed.

(** A needle without line feed that is in the joined lines is in one of
    them. *)
Lemma substring_join (n : pystr) (ls : list pystr) :
  n <> [] -> ~ In 10%N n -> substring n (join [10%N] ls) ->
  exists l, In l ls /\ substring n l.
Proof.
  intros Hne Hn. induction ls as [|p rest IH]; cbn [join].
  - intros [pre [suf E]]. symmetry in E.
    apply app_eq_nil in E as [_ E]. apply app_eq_nil in E as [E _].
    now elim Hne.
  - destruct rest as [|q rest].
    + intros H. exists p. split; [now left | exact H].
    + intros [pre [suf E]]. change ([10%N] ++ join [10%N] (q :: rest))
        with (10%N :: join [10%N] (q :: rest)) in E. symmetry in E.
      destruct (infix_across pre n suf p _ 10%N E Hn) as [[s' Ep] | [p' E']].
      * exists p. split; [now left | now exists pre, s'].
      * destruct IH as [l [Hin Hl]]; [now exists p', suf |].
        exists l. split; [now right | exact Hl].
Qed.

Lemma lower_join (ls : list pystr) :
  lower (join [10%N] ls) = join [10%N] (List.map lower ls).
Proof.
  induction ls as [|p rest IH]; [reflexivity |].
  destruct rest as [|q rest]; [reflexivity |].
  cbn [join List.map] in *. now rewrite !lower_app, IH.
Qed.

Lemma splitlines_one_line (s : pystr) :
  forallb (fun c => negb (is_linebreak c)) s = true ->
  forall cur,
  splitlines_from cur s
  = match rev cur ++ s with
    | [] => []
    | _ :: _ => [rev cur ++ s]
    end.
Proof.
  induction s as [|c t IH]; intros H cur.
  - cbn [splitlines_from]. rewrite app_nil_r. destruct cur as [|c cur];
      [reflexivity |].
    simpl rev. destruct (rev cur ++ [c]) eqn:E; [| reflexivity].
    apply app_eq_nil in E as [_ E]. discriminate.
  - simpl in H. apply andb_true_iff in H as [Hc Ht].
    apply negb_true_iff in Hc.
    assert (H13 : N.eqb c 13 = false).
    { apply N.eqb_neq. intros ->. discriminate. }
    cbn [splitlines_from]. rewrite H13, Hc, (IH Ht). simpl rev.
    now rewrite <- app_assoc.
Qed.

(** X5.  What the Gemini adapter keeps of stderr mentions neither
    [DeprecationWarning] nor, in any case of letters, [punycode], and has
    no whitespace at its ends; and an error text of one line that mentions
    neither is kept as it is, up to trimming. *)
Theorem gemini_filter_stderr_clean (stderr : pystr) :
  ~ substring (lit "DeprecationWarning") (GeminiAdapter_filter_stderr stderr)
  /\ ~ substring (lit "punycode")
         (lower (GeminiAdapter_filter_stderr stderr))
  /\ trimmed (GeminiAdapter_filter_stderr stderr)
  /\ (forallb (fun c => negb (is_linebreak c)) stderr = true ->
      ~ substring (lit "DeprecationWarning") stderr ->
      ~ substring (lit "punycode") (lower stderr) ->
      GeminiAdapter_filter_stderr stderr = strip stderr).
Proof.
  unfold GeminiAdapter_filter_stderr.
  set (keep := fun line =>
                 negb (contains (lit "punycode") (lower line))
                 && negb (contains (lit "DeprecationWarning") line)).
  split; [| split; [| split; [apply strip_trimmed |]]].
  - intros H. apply substring_strip in H.
    apply substring_join in H as [l [Hin Hl]];
      [| discriminate | simpl; intuition discriminate].
    apply filter_In in Hin as [_ Hk]. unfold keep in Hk.
    apply andb_true_iff in Hk as [_ Hk]. apply negb_true_iff in Hk.
    apply contains_spec in Hl. congruence.
  - intros H. apply substring_lower_strip in H. rewrite lower_join in H.
    apply substring_join in H as [l' [Hin Hl]];
      [| discriminate | simpl; intuition discriminate].
    apply in_map_iff in Hin as [l [<- Hin]].
    apply filter_In in Hin as [_ Hk]. unfold keep in Hk.
    apply andb_true_iff in Hk as [Hk _]. apply negb_true_iff in Hk.
    apply contains_spec in Hl. congruence.
  - intros Hline Hd Hp. unfold splitlines.
    rewrite (splitlines_one_line stderr Hline []). simpl rev. simpl app.
    destruct stderr as [|c t]; [reflexivity |].
    apply contains_false in Hd, Hp.
    cbn [filter]. unfold keep at 1. rewrite Hd, Hp. reflexivity.
Qed.

Lemma gemini_filter_stderr_clean_witness :
  GeminiAdapter_filter_stderr (lit " Connection refused ")
  = lit "Connection refused".
Proof.
  rewrite (proj2 (proj2 (proj2
             (gemini_filter_stderr_clean (lit " Connection refused "))))).
  - reflexivity.
  - reflexivity.
  - apply contains_false. reflexivity.
  - apply contains_false. reflexivity.
Defined.

(** X6.  For every adapter, the output and the error text of a parsed
    result have no whitespace at either end, so trimming them again
    changes nothing; and a rate-limited parsed result is never
    successful, whatever the exit code. *)
Theorem parse_output_trimmed (a : AgentAdapter) (stdout stderr_bytes : bytes)
    (rc : Z) :
  let r := parse_output a stdout stderr_bytes rc in
  trimmed (output r) /\ trimmed (stderr r)
  /\ strip (output r) = output r /\ strip (stderr r) = stderr r
  /\ (rate_limited r = true -> success r = false).
Proof.
  cbv zeta.
  assert (Ho : trimmed (output (parse_output a stdout stderr_bytes rc)))
    by apply strip_trimmed.
  assert (He : trimmed (stderr (parse_output a stdout stderr_bytes rc))).
  { cbn [stderr parse_output]. unfold _filter_stderr.
    destruct (kind a); apply strip_trimmed. }
  split; [exact Ho |]. split; [exact He |].
  split; [now apply strip_clean |]. split; [now apply strip_clean |].
  cbn [rate_limited success parse_output]. intros ->. apply andb_false_r.
Qed.

Lemma parse_output_trimmed_witness :
  success (parse_output claude_adapter (blit "")
             (blit "Error: 429 Too Many Requests") 0) = false.
Proof.
  apply (parse_output_trimmed claude_adapter (blit "")
           (blit "Error: 429 Too Many Requests") 0).
  reflexivity.
Defined.

(** ** The shape of a command *)

Lemma last_snoc {A : Type} (l : list A) (x d : A) : last (l ++ [x]) d = x.
Proof.
  induction l as [|y l IH]; [reflexivity |].
  simpl. destruct (l ++ [x]) eqn:E; [| exact IH].
  apply app_eq_nil in E as [_ E]. discriminate.
Qed.

(** X7.  The first argument of every command is the binary path.  The
    Claude command goes on with [-p] and the prompt; the Codex command
    goes on with [exec]; the Codex and Gemini commands end with the
    prompt.  The extra arguments of the configuration are in the command,
    in their order: at its end for Claude, just before the prompt for the
    other two. *)
Theorem build_command_shape (a : AgentAdapter) (prompt : pystr)
    (kw : Kwargs) :
  let cmd := build_command a prompt kw in
  nth_error cmd 0 = Some (binary_path a)
  /\ (kind a = Claude ->
      nth_error cmd 1 = Some (lit "-p") /\ nth_error cmd 2 = Some prompt
      /\ exists pre, cmd = pre ++ extra_args a)
  /\ (kind a = Codex -> nth_error cmd 1 = Some (lit "exec"))
  /\ (kind a <> Claude ->
      last cmd [] = prompt
      /\ exists pre, cmd = pre ++ extra_args a ++ [prompt]).
Proof.
  cbv zeta. unfold build_command.
  destruct (kind a) eqn:K;
    unfold ClaudeAdapter_build_command, CodexAdapter_build_command,
      GeminiAdapter_build_command.
  - split; [reflexivity |]. split; [| split; [discriminate |]].
    + intros _. split; [reflexivity |]. split; [reflexivity |].
      eexists. rewrite !app_assoc. reflexivity.
    + intros H. now elim H.
  - split; [reflexivity |]. split; [discriminate |].
    split; [reflexivity |]. intros _. split.
    + rewrite !app_assoc. apply last_snoc.
    + exists ([binary_path a; lit "exec"]
              ++ flag_value (lit "-m")
                   (str_or (kw_model kw) (default_model a))
              ++ (if effective_approve a (kw_auto_approve kw)
                  then [lit "--full-auto"] else [])
              ++ (if kw_json_output kw then [lit "--json"] else [])).
      now rewrite <- !app_assoc.
  - split; [reflexivity |]. split; [discriminate |].
    split; [discriminate |]. intros _. split.
    + rewrite !app_assoc. apply last_snoc.
    + exists ([binary_path a]
              ++ (if kw_json_output kw
                  then [lit "--output-format"; lit "json"] else [])
              ++ flag_value (lit "-m")
                   (str_or (kw_model kw) (default_model a))
              ++ (if effective_approve a (kw_auto_approve kw)
                  then [lit "-y"] else [])).
      now rewrite <- !app_assoc.
Qed.

Lemma build_command_shape_witness :
  nth_error (build_command claude_adapter (lit "Say hello") no_kwargs) 2
  = Some (lit "Say hello")
  /\ nth_error (build_command codex_adapter (lit "Say hello") no_kwargs) 1
     = Some (lit "exec")
  /\ last (build_command gemini_configured (lit "Say hello")
             kw_defaults_with_turns) [] = lit "Say hello".
Proof.
  split; [| split].
  - apply (proj1 (proj2 (build_command_shape claude_adapter
                           (lit "Say hello") no_kwargs))).
    reflexivity.
  - apply (proj1 (proj2 (proj2 (build_command_shape codex_adapter
                                  (lit "Say hello") no_kwargs)))).
    reflexivity.
  - apply (proj2 (proj2 (proj2 (build_command_shape gemini_configured
                                  (lit "Say hello") kw_defaults_with_turns)))).
    discriminate.
Defined.

(** ** How the options of a command are resolved *)

Lemma flag_value_absent (flag : pystr) (v : option pystr) :
  truthy_str v = false -> flag_value flag v = [].
Proof. now destruct v as [[|c s]|]. Qed.

(** X8.  An explicit [auto_approve=true], or none with an adapter
    configured to approve, puts the approval flag in the command; none
    with an adapter configured not to approve leaves it out.  A model that
    is absent or empty falls back to the configured default model, which
    then follows the model flag; without either there is no model flag.
    (The two absences hold when no string of the caller is itself the
    flag.)  The Codex and Gemini commands do not depend on the system
    prompt and the turn limit, and for Claude a system prompt that is
    empty and a turn limit of 0 count as absent. *)
Theorem build_command_options (a : AgentAdapter) (prompt : pystr)
    (kw : Kwargs) :
  let cmd := build_command a prompt kw in
  (kw_auto_approve kw = Some true
   \/ (kw_auto_approve kw = None /\ auto_approve a = true) ->
   In (approval_flag (kind a)) cmd)
  /\ (kw_auto_approve kw = None -> auto_approve a = false ->
      ~ In (approval_flag (kind a)) (caller_strings a prompt kw) ->
      ~ In (approval_flag (kind a)) cmd)
  /\ (forall d,
        kw_model kw = None \/ kw_model kw = Some [] ->
        default_model a = Some d -> d <> [] ->
        exists pre suf, cmd = pre ++ model_flag (kind a) :: d :: suf)
  /\ (kw_model kw = None \/ kw_model kw = Some [] ->
      default_model a = None \/ default_model a = Some [] ->
      ~ In (model_flag (kind a)) (caller_strings a prompt kw) ->
      ~ In (model_flag (kind a)) cmd)
  /\ (forall sp mt,
        kind a <> Claude ->
        cmd = build_command a prompt
                {| kw_json_output := kw_json_output kw;
                   kw_model := kw_model kw;
                   kw_auto_approve := kw_auto_approve kw;
                   kw_system_prompt := sp; kw_max_turns := mt |})
  /\ (kind a = Claude ->
      kw_system_prompt kw = Some [] -> kw_max_turns kw = Some 0%Z ->
      cmd = build_command a prompt
              {| kw_json_output := kw_json_output kw;
                 kw_model := kw_model kw;
                 kw_auto_approve := kw_auto_approve kw;
                 kw_system_prompt := None; kw_max_turns := None |}).
Proof.
  cbv zeta. split; [| split; [| split; [| split; [| split]]]].
  - intros Happ.
    assert (He : effective_approve a (kw_auto_approve kw) = true).
    { unfold effective_approve.
      destruct Happ as [-> | [-> ->]]; reflexivity. }
    unfold build_command.
    destruct (kind a);
      unfold ClaudeAdapter_build_command, CodexAdapter_build_command,
        GeminiAdapter_build_command; rewrite He;
      rewrite !in_app_iff; cbn [approval_flag];
      repeat first [ left; now left | right ].
  - intros Hk Hd Hc H.
    apply not_caller_string in Hc as [Hb [Hp [He [Hm [Hdm Hs]]]]].
    unfold build_command in H.
    destruct (kind a); cbn [approval_flag] in *;
      unfold ClaudeAdapter_build_command, CodexAdapter_build_command,
        GeminiAdapter_build_command, effective_approve in H;
      rewrite Hk, Hd in H; split_in H; try close_in H.
    destruct (truthy_int (kw_max_turns kw)); [| contradiction].
    destruct H as [H | [H | []]]; [discriminate |].
    now apply (str_of_int_not_flag _ (lit "--permission-mode")) in H.
  - intros d Hm Hd Hne.
    assert (Hv : forall flag,
              flag_value flag (str_or (kw_model kw) (default_model a))
              = [flag; d]).
    { intros flag. unfold str_or.
      destruct Hm as [-> | ->]; simpl; rewrite Hd;
        (destruct d; [now elim Hne | reflexivity]). }
    unfold build_command.
    destruct (kind a); cbn [model_flag];
      unfold ClaudeAdapter_build_command, CodexAdapter_build_command,
        GeminiAdapter_build_command; rewrite Hv.
    + exists ([binary_path a; lit "-p"; prompt]
              ++ (if kw_json_output kw
                  then [lit "--output-format"; lit "json"] else [])).
      eexists. rewrite <- app_assoc. reflexivity.
    + exists [binary_path a; lit "exec"]. eexists. reflexivity.
    + exists ([binary_path a]
              ++ (if kw_json_output kw
                  then [lit "--output-format"; lit "json"] else [])).
      eexists. rewrite <- app_assoc. reflexivity.
  - intros Hm Hd Hc H.
    assert (Hv : forall flag,
              flag_value flag (str_or (kw_model kw) (default_model a)) = []).
    { intros flag. apply flag_value_absent. unfold str_or.
      destruct Hm as [-> | ->]; destruct Hd as [-> | ->]; reflexivity. }
    apply not_caller_string in Hc as [Hb [Hp [He [Hm' [Hdm Hs]]]]].
    unfold build_command in H.
    destruct (kind a); cbn [model_flag] in *;
      unfold ClaudeAdapter_build_command, CodexAdapter_build_command,
        GeminiAdapter_build_command in H;
      rewrite Hv in H; split_in H; try close_in H.
    destruct (truthy_int (kw_max_turns kw)); [| contradiction].
    destruct H as [H | [H | []]]; [discriminate |].
    now apply (str_of_int_not_flag _ (lit "--model")) in H.
  - intros sp mt Hk. unfold build_command.
    destruct (kind a); [now elim Hk | reflexivity | reflexivity].
  - intros Hk Hs Ht. unfold build_command. rewrite Hk.
    unfold ClaudeAdapter_build_command. cbn [kw_json_output kw_model
      kw_auto_approve kw_system_prompt kw_max_turns].
    now rewrite Hs, Ht.
Qed.

Lemma build_command_options_witness :
  ~ In (lit "-y")
       (build_command gemini_configured (lit "Say hello")
          kw_defaults_with_turns)
  /\ (exists pre suf,
        build_command gemini_configured (lit "Say hello")
          kw_defaults_with_turns
        = pre ++ lit "-m" :: lit "gemini-pro" :: suf)
  /\ In (lit "--permission-mode")
        (build_command claude_adapter (lit "Say hello") no_kwargs)
  /\ build_command gemini_configured (lit "Say hello") kw_defaults_with_turns
     = build_command gemini_configured (lit "Say hello")
         {| kw_json_output := true; kw_model := Some [];
            kw_auto_approve := None; kw_system_prompt := None;
            kw_max_turns := None |}.
Proof.
  pose proof (build_command_options gemini_configured (lit "Say hello")
                kw_defaults_with_turns) as [_ [H2 [H3 [_ [H5 _]]]]].
  pose proof (build_command_options claude_adapter (lit "Say hello")
                no_kwargs) as [H1 _].
  split; [| split; [| split]].
  - apply H2; [reflexivity | reflexivity |]. simpl. intuition discriminate.
  - apply (H3 (lit "gemini-pro")); [now right | reflexivity | discriminate].
  - apply H1. right. split; reflexivity.
  - apply (H5 None None). discriminate.
Defined.

(** ** Failures that are not rate limits *)




(** ** What a call of [run_single] costs, whatever the processes do *)








(** ** [run_single] returns a result *)







(** ** What a call of [run_parallel] costs *)




(** ** The tasks made of a plan *)

Lemma pystr_eqb_eq (a b : pystr) : pystr_eqb a b = true <-> a = b.
Proof.
  unfold pystr_eqb. destruct (list_eq_dec N.eq_dec a b); split;
    intros H; try reflexivity; try assumption; try discriminate.
  contradiction.
Qed.

Lemma dispatch_task_some (o : Orchestrator.t) (s : json) (a p : pystr) :
  Orchestrator.dispatch_task o s = Return (Some (a, p))
  <-> exists d, s = JDict d /\ dispatchable o d a p.
Proof.
  unfold dispatchable. split.
  - destruct s as [| | | | |l|d]; try discriminate.
    cbn [Orchestrator.dispatch_task]. intros H. exists d.
    split; [reflexivity |].
    destruct (dict_get d (lit "prompt")) as [[| | | |tp| |]|];
      try discriminate.
    destruct (strip tp) as [|c u] eqn:Es; [discriminate |].
    destruct (get_or d (lit "agent") (JStr [])) as [| | | |ag| |];
      try discriminate.
    destruct (dict_get (Orchestrator.adapters o) ag) as [ad|] eqn:Ea;
      [| discriminate].
    destruct (Orchestrator._primary_is_coordinator_only o
              && pystr_eqb ag (Orchestrator.primary o)) eqn:Ec;
      [discriminate |].
    injection H as -> ->. rewrite Es, Ea.
    repeat split; try discriminate.
    intros [Hc He]. rewrite Hc in Ec. simpl in Ec.
    apply pystr_eqb_eq in He. congruence.
  - intros [d [-> [Ha [Hp [Hs [Hk Hc]]]]]].
    cbn [Orchestrator.dispatch_task]. rewrite Hp, Ha.
    destruct (strip p) as [|c u]; [now elim Hs |].
    destruct (dict_get (Orchestrator.adapters o) a); [| now elim Hk].
    destruct (Orchestrator._primary_is_coordinator_only o) eqn:Eo;
      [| reflexivity].
    destruct (pystr_eqb a (Orchestrator.primary o)) eqn:Ee;
      [| reflexivity].
    apply pystr_eqb_eq in Ee. elim Hc. now split.
Qed.

Lemma dispatch_task_plain (o : Orchestrator.t) (s : json) :
  plain_subtask s -> exists added, Orchestrator.dispatch_task o s = Return added.
Proof.
  destruct s as [| | | | |l|d]; try contradiction.
  cbn [plain_subtask Orchestrator.dispatch_task]. intros H.
  destruct (dict_get d (lit "prompt")) as [[| | | |tp| |]|];
    try (eexists; reflexivity).
  destruct (strip tp); [eexists; reflexivity |].
  destruct (get_or d (lit "agent") (JStr [])) as [| | | |ag| |];
    try contradiction; try (eexists; reflexivity).
  destruct (dict_get (Orchestrator.adapters o) ag);
    [| eexists; reflexivity].
  destruct (Orchestrator._primary_is_coordinator_only o
            && pystr_eqb ag (Orchestrator.primary o)); eexists; reflexivity.
Qed.

Lemma dispatch_tasks_spec (o : Orchestrator.t) (l : list json) :
  forall tasks,
  Orchestrator.dispatch_tasks o l = Return tasks ->
  (forall a p,
     In (a, p) tasks
     <-> exists s, In s l
                   /\ Orchestrator.dispatch_task o s = Return (Some (a, p)))
  /\ (List.length tasks <= List.length l)%nat.
Proof.
  induction l as [|s rest IH]; intros tasks; cbn [Orchestrator.dispatch_tasks].
  - intros H. injection H as <-. split; [| simpl; lia].
    intros a p. split; [intros [] | intros [s [[] _]]].
  - destruct (Orchestrator.dispatch_task o s) as [added|e] eqn:Es;
      [| discriminate].
    destruct (Orchestrator.dispatch_tasks o rest) as [ts|e] eqn:Er;
      [| discriminate].
    destruct (IH ts eq_refl) as [Hin Hlen].
    intros H. injection H as <-. split.
    + intros a p. destruct added as [[a0 p0]|].
      * split.
        -- intros [E | Hi].
           ++ injection E as -> ->. exists s. split; [now left | exact Es].
           ++ apply Hin in Hi as [s' [Hs' Hd]]. exists s'.
              split; [now right | exact Hd].
        -- intros [s' [[<- | Hs'] Hd]].
           ++ left. congruence.
           ++ right. apply Hin. now exists s'.
      * split.
        -- intros Hi. apply Hin in Hi as [s' [Hs' Hd]]. exists s'.
           split; [now right | exact Hd].
        -- intros [s' [[<- | Hs'] Hd]]; [congruence |].
           apply Hin. now exists s'.
    + destruct added; simpl; lia.
Qed.

(** X13.  [_build_dispatch_tasks] on a list of subtasks that are
    dictionaries with a scalar [agent] returns a task list and raises
    nothing.  Whenever it returns, a pair of an agent and a prompt is in
    the list exactly when some subtask names that agent and that prompt,
    the prompt is a string that is not blank, the agent has an adapter,
    and the agent is not the primary while the primary is
    coordinator-only; the prompt is passed on as it stands, not trimmed.
    The list is never longer than the list of subtasks. *)
Theorem build_dispatch_tasks_spec (o : Orchestrator.t) (subtasks : list json) :
  (Forall plain_subtask subtasks ->
   exists tasks,
     Orchestrator._build_dispatch_tasks o (JList subtasks) = Return tasks)
  /\ (forall tasks,
        Orchestrator._build_dispatch_tasks o (JList subtasks) = Return tasks ->
        (forall agent task_prompt,
           In (agent, task_prompt) tasks
           <-> exists d, In (JDict d) subtasks
                         /\ dispatchable o d agent task_prompt)
        /\ (List.length tasks <= List.length subtasks)%nat).
Proof.
  unfold Orchestrator._build_dispatch_tasks. cbn [py_iter]. split.
  - induction subtasks as [|s rest IH]; intros H.
    + now exists [].
    + inversion H as [|s' rest' Hs Hrest]; subst.
      destruct (dispatch_task_plain o s Hs) as [added Ea].
      destruct (IH Hrest) as [ts Et].
      cbn [Orchestrator.dispatch_tasks]. rewrite Ea, Et. eexists; reflexivity.
  - intros tasks H.
    destruct (dispatch_tasks_spec o subtasks tasks H) as [Hin Hlen].
    split; [| exact Hlen]. intros a p. rewrite Hin. split.
    + intros [s [Hs Hd]]. apply dispatch_task_some in Hd as [d [-> Hd]].
      now exists d.
    + intros [d [Hs Hd]]. exists (JDict d). split; [exact Hs |].
      apply dispatch_task_some. now exists d.
Qed.

Lemma build_dispatch_tasks_spec_witness :
  Orchestrator._build_dispatch_tasks claude_orchestrator (JList mixed_subtasks)
  = Return [(lit "gemini", lit " Search the web ")]
  /\ (exists d, In (JDict d) mixed_subtasks
                /\ dispatchable claude_orchestrator d (lit "gemini")
                     (lit " Search the web ")).
Proof.
  split; [reflexivity |].
  apply (proj2 (build_dispatch_tasks_spec claude_orchestrator mixed_subtasks)
           [(lit "gemini", lit " Search the web ")] eq_refl).
  now left.
Defined.

(** ** A coordinator-only primary only coordinates *)

Lemma dict_get_in_keys {V : Type} (d : dict V) (k : pystr) :
  In k (keys d) <-> dict_get d k <> None.
Proof.
  induction d as [|[k0 v] rest IH]; simpl.
  - split; [intros [] | intros H; now elim H].
  - destruct (pystr_eqb k0 k) eqn:E.
    + apply pystr_eqb_eq in E. split; [discriminate | now left].
    + rewrite <- IH. split; [| now right].
      intros [H | H]; [| exact H].
      apply pystr_eqb_eq in H. congruence.
Qed.








(** ** A primary that is a worker: direct execution and delegation *)










(** ** The comparison of agents *)



(** ** The adapters built from a detection *)

Lemma dict_get_set {V : Type} (d : dict V) (k k' : pystr) (v : V) :
  dict_get (dict_set d k v) k'
  = if pystr_eqb k k' then Some v else dict_get d k'.
Proof.
  induction d as [|[k0 x] rest IH]; simpl.
  - reflexivity.
  - destruct (pystr_eqb k0 k) eqn:E0; simpl.
    + apply pystr_eqb_eq in E0. subst k0.
      now destruct (pystr_eqb k k').
    + destruct (pystr_eqb k0 k') eqn:E1; [| exact IH].
      destruct (pystr_eqb k k') eqn:E2; [| reflexivity].
      apply pystr_eqb_eq in E1, E2. subst.
      assert (H : pystr_eqb k' k' = true) by now apply pystr_eqb_eq.
      congruence.
Qed.

Lemma keys_dict_set {V : Type} (d : dict V) (k : pystr) (v : V) :
  keys (dict_set d k v) = if dict_mem d k then keys d else keys d ++ [k].
Proof.
  unfold dict_mem, keys. induction d as [|[k0 x] rest IH]; simpl.
  - reflexivity.
  - destruct (pystr_eqb k0 k) eqn:E0; simpl; [reflexivity |].
    rewrite IH. now destruct (dict_get rest k).
Qed.

Lemma dict_set_forall {V : Type} (P : pystr * V -> Prop) (d : dict V)
    (k : pystr) (v : V) :
  Forall P d -> (forall k0, k0 = k -> P (k0, v)) -> Forall P (dict_set d k v).
Proof.
  intros Hd Hv. induction Hd as [|[k0 x] rest Hx Hrest IH]; simpl.
  - constructor; [now apply Hv | constructor].
  - destruct (pystr_eqb k0 k) eqn:E.
    + apply pystr_eqb_eq in E. constructor; [now apply Hv | exact Hrest].
    + constructor; assumption.
Qed.

Lemma build_adapters_lookup_from (config : Config.AppConfig)
    (detected : dict Detector.DetectedAgent) :
  forall (acc : dict AgentAdapter) (name : pystr),
  NoDup (keys detected) ->
  dict_get
    (fold_left
       (fun adapters item =>
          match dict_get ADAPTER_CLASSES (fst item) with
          | None => adapters
          | Some cls =>
              dict_set adapters (fst item)
                (adapter_for cls (get_agent_config config (fst item))
                   (snd item))
          end) detected acc) name
  = match dict_get detected name, dict_get ADAPTER_CLASSES name with
    | Some agent, Some cls =>
        Some (adapter_for cls (get_agent_config config name) agent)
    | _, _ => dict_get acc name
    end.
Proof.
  induction detected as [|[k a] rest IH]; intros acc name Hnd.
  - reflexivity.
  - cbn [fold_left fst snd]. inversion Hnd as [|k' ks Hnotin Hrest]; subst.
    rewrite (IH _ name Hrest). cbn [dict_get].
    destruct (pystr_eqb k name) eqn:E.
    + apply pystr_eqb_eq in E. subst k.
      assert (Hn : dict_get rest name = None).
      { destruct (dict_get rest name) eqn:G; [| reflexivity].
        elim Hnotin. apply dict_get_in_keys. congruence. }
      rewrite Hn. destruct (dict_get ADAPTER_CLASSES name) as [cls|];
        [| reflexivity].
      rewrite dict_get_set.
      assert (H : pystr_eqb name name = true) by now apply pystr_eqb_eq.
      now rewrite H.
    + assert (Hacc : dict_get
                       match dict_get ADAPTER_CLASSES k with
                       | Some cls =>
                           dict_set acc k
                             (adapter_for cls (get_agent_config config k) a)
                       | None => acc
                       end name = dict_get acc name).
      { destruct (dict_get ADAPTER_CLASSES k); [| reflexivity].
        now rewrite dict_get_set, E. }
      rewrite Hacc. reflexivity.
Qed.

Lemma build_adapters_keys_from (config : Config.AppConfig)
    (detected : dict Detector.DetectedAgent) :
  forall acc : dict AgentAdapter,
  NoDup (keys detected) ->
  (forall k, In k (keys detected) -> ~ In k (keys acc)) ->
  keys
    (fold_left
       (fun adapters item =>
          match dict_get ADAPTER_CLASSES (fst item) with
          | None => adapters
          | Some cls =>
              dict_set adapters (fst item)
                (adapter_for cls (get_agent_config config (fst item))
                   (snd item))
          end) detected acc)
  = keys acc ++ filter (dict_mem ADAPTER_CLASSES) (keys detected).
Proof.
  induction detected as [|[k a] rest IH]; intros acc Hnd Hdis.
  - simpl. now rewrite app_nil_r.
  - cbn [fold_left fst snd]. inversion Hnd as [|k' ks Hnotin Hrest]; subst.
    assert (Hk : ~ In k (keys acc)) by (apply Hdis; now left).
    rewrite IH; [| exact Hrest |].
    + cbn [keys List.map fst filter]. unfold dict_mem at 2.
      destruct (dict_get ADAPTER_CLASSES k) as [cls|].
      * rewrite keys_dict_set. unfold dict_mem.
        destruct (dict_get acc k) eqn:G.
        -- elim Hk. apply dict_get_in_keys. congruence.
        -- now rewrite <- app_assoc.
      * reflexivity.
    + intros k0 Hin Hacc.
      destruct (dict_get ADAPTER_CLASSES k) as [cls|].
      * rewrite keys_dict_set in Hacc.
        destruct (dict_mem acc k).
        -- apply (Hdis k0); [now right | exact Hacc].
        -- apply in_app_or in Hacc as [Hacc | [<- | []]].
           ++ apply (Hdis k0); [now right | exact Hacc].
           ++ now apply Hnotin.
      * apply (Hdis k0); [now right | exact Hacc].
Qed.

(** X18.  For a detection in which every name occurs once,
    [_build_adapters] holds an adapter under a name exactly when the name
    was detected and has an adapter class.  The adapter is of that class;
    its binary is the configured path when one is configured and not
    empty, else the detected path; its timeout, approval, default model
    and extra arguments are those of the configuration of the name, the
    defaults when the name is not configured.  The names come in the order
    of the detection. *)
Theorem build_adapters_lookup (detected : dict Detector.DetectedAgent)
    (config : Config.AppConfig) :
  NoDup (keys detected) ->
  (forall name,
     dict_get (_build_adapters detected config) name
     = match dict_get detected name, dict_get ADAPTER_CLASSES name with
       | Some agent, Some cls =>
           Some (adapter_for cls (get_agent_config config name) agent)
       | _, _ => None
       end)
  /\ keys (_build_adapters detected config)
     = filter (dict_mem ADAPTER_CLASSES) (keys detected).
Proof.
  intros Hnd. unfold _build_adapters. split.
  - intros name. now rewrite (build_adapters_lookup_from config detected).
  - rewrite (build_adapters_keys_from config detected [] Hnd);
      [reflexivity | intros k _ []].
Qed.

Lemma build_adapters_lookup_witness :
  dict_get (_build_adapters detected_three config_moved_claude) (lit "claude")
  = Some {| kind := Claude; binary_path := lit "/opt/claude"; timeout := 120;
            auto_approve := false; default_model := None; extra_args := [] |}
  /\ dict_get (_build_adapters detected_three config_moved_claude)
       (lit "copilot") = None
  /\ keys (_build_adapters detected_three config_moved_claude)
     = [lit "codex"; lit "claude"].
Proof.
  assert (Hnd : NoDup (keys detected_three)).
  { repeat constructor; simpl; intuition discriminate. }
  destruct (build_adapters_lookup detected_three config_moved_claude Hnd)
    as [Hget Hkeys].
  split; [| split].
  - rewrite Hget. reflexivity.
  - rewrite Hget. reflexivity.
  - rewrite Hkeys. reflexivity.
Defined.

Lemma adapter_class_name (k : pystr) (cls : AgentKind) (a : AgentAdapter) :
  dict_get ADAPTER_CLASSES k = Some cls -> kind a = cls -> name a = k.
Proof.
  unfold ADAPTER_CLASSES, name. cbn [dict_get]. intros H ->.
  destruct (pystr_eqb (lit "claude") k) eqn:E1.
  { apply pystr_eqb_eq in E1. now injection H as <-. }
  destruct (pystr_eqb (lit "gemini") k) eqn:E2.
  { apply pystr_eqb_eq in E2. now injection H as <-. }
  destruct (pystr_eqb (lit "codex") k) eqn:E3; [| discriminate].
  apply pystr_eqb_eq in E3. now injection H as <-.
Qed.

Lemma build_adapters_entries_from (config : Config.AppConfig)
    (P : pystr * AgentAdapter -> Prop)
    (detected : dict Detector.DetectedAgent) :
  (forall k agent cls,
     In (k, agent) detected -> dict_get ADAPTER_CLASSES k = Some cls ->
     P (k, adapter_for cls (get_agent_config config k) agent)) ->
  forall acc : dict AgentAdapter,
  Forall P acc ->
  Forall P
    (fold_left
       (fun adapters item =>
          match dict_get ADAPTER_CLASSES (fst item) with
          | None => adapters
          | Some cls =>
              dict_set adapters (fst item)
                (adapter_for cls (get_agent_config config (fst item))
                   (snd item))
          end) detected acc).
Proof.
  induction detected as [|[k a] rest IH]; intros HP acc Hacc.
  - exact Hacc.
  - cbn [fold_left fst snd]. apply IH.
    + intros k0 agent cls Hin. apply HP. now right.
    + destruct (dict_get ADAPTER_CLASSES k) as [cls|] eqn:Ec; [| exact Hacc].
      apply dict_set_forall; [exact Hacc |].
      intros k0 ->. apply HP; [now left | exact Ec].
Qed.

(** X19.  Whatever the detection holds, every adapter [_build_adapters]
    returns stands under the name of its own class, so a result it parses
    carries the name it was asked under; the name was detected; and the
    adapter has the timeout, approval, default model and extra arguments
    of the configuration of that name.  The [max_turns] of a configuration
    is never read: two configurations that differ in it alone give the
    same adapters. *)
Theorem build_adapters_entries (detected : dict Detector.DetectedAgent)
    (config : Config.AppConfig) :
  (forall k a,
     In (k, a) (_build_adapters detected config) ->
     name a = k
     /\ In k (keys detected)
     /\ timeout a = Config.timeout (get_agent_config config k)
     /\ auto_approve a = Config.auto_approve (get_agent_config config k)
     /\ default_model a = Config.default_model (get_agent_config config k)
     /\ extra_args a = Config.extra_args (get_agent_config config k))
  /\ (forall config',
        (forall k, same_but_max_turns (get_agent_config config k)
                     (get_agent_config config' k)) ->
        _build_adapters detected config' = _build_adapters detected config).
Proof.
  split.
  - intros k a Hin.
    set (P := fun e : pystr * AgentAdapter =>
                name (snd e) = fst e
                /\ In (fst e) (keys detected)
                /\ timeout (snd e)
                   = Config.timeout (get_agent_config config (fst e))
                /\ auto_approve (snd e)
                   = Config.auto_approve (get_agent_config config (fst e))
                /\ default_model (snd e)
                   = Config.default_model (get_agent_config config (fst e))
                /\ extra_args (snd e)
                   = Config.extra_args (get_agent_config config (fst e))).
    assert (Hall : Forall P (_build_adapters detected config)).
    { apply (build_adapters_entries_from config P detected);
        [| constructor].
      intros k0 agent cls Hi Hc. unfold P. cbn [fst snd].
      split; [now apply (adapter_class_name k0 cls) |].
      split; [exact (in_map fst detected (k0, agent) Hi) |].
      now repeat split. }
    exact (proj1 (Forall_forall P _) Hall (k, a) Hin).
  - intros config' Hsame. unfold _build_adapters.
    generalize (@nil (pystr * AgentAdapter)).
    induction detected as [|[k a] rest IH]; intros acc; [reflexivity |].
    cbn [fold_left fst snd]. rewrite IH.
    destruct (dict_get ADAPTER_CLASSES k) as [cls|]; [| reflexivity].
    destruct (Hsame k) as [H1 [H2 [H3 [H4 H5]]]].
    unfold adapter_for. now rewrite H1, H2, H3, H4, H5.
Qed.

Lemma build_adapters_entries_witness :
  exists a,
    In (lit "claude", a) (_build_adapters detected_three config_moved_claude)
    /\ name a = lit "claude"
    /\ timeout a = 120%Z.
Proof.
  eexists. split; [right; left; reflexivity |].
  destruct (proj1 (build_adapters_entries detected_three config_moved_claude)
              (lit "claude") _ (or_intror (or_introl eq_refl)))
    as [Hn [_ [Ht _]]].
  split; [exact Hn | exact Ht].
Defined.

(** ** What the formatters show of a result *)

Lemma status_label_cases (r : AgentResult) :
  (success r = true /\ startswith (lit "SUCCESS") (status_label r) = true)
  \/ (success r = false /\ rate_limited r = true
      /\ status_label r = lit "RATE_LIMITED")
  \/ (success r = false /\ rate_limited r = false
      /\ (status_label r = lit "TIMEOUT" \/ status_label r = lit "FAILED")).
Proof.
  unfold status_label. destruct (success r).
  - left. split; [reflexivity |]. now destruct (0 <? retries r)%Z.
  - right. destruct (rate_limited r).
    + left. now repeat split.
    + right. split; [reflexivity | split; [reflexivity |]].
      destruct (contains (lit "timed out") (lower (stderr r))
                || contains (lit "timeout") (lower (stderr r)));
        [now left | now right].
Qed.

(** X20.  The style a formatter picks for the status of a result follows
    its flags: the success style for every successful result, retried or
    not; the rate-limit style for an unsuccessful result marked
    rate-limited; the timeout or the failure style, with the label, for
    the others.  The fallback style of either formatter is never used for
    the label of a result. *)
Theorem status_style_of_result (r : AgentResult) :
  (success r = true ->
   comparison_status_style (status_label r) = lit "status.success"
   /\ panel_border_style (status_label r) = lit "green")
  /\ (success r = false -> rate_limited r = true ->
      comparison_status_style (status_label r) = lit "status.rate_limited"
      /\ panel_border_style (status_label r) = lit "#ff8800")
  /\ (success r = false -> rate_limited r = false ->
      (status_label r = lit "TIMEOUT"
       /\ comparison_status_style (status_label r) = lit "status.timeout"
       /\ panel_border_style (status_label r) = lit "yellow")
      \/ (status_label r = lit "FAILED"
          /\ comparison_status_style (status_label r) = lit "status.failed"
          /\ panel_border_style (status_label r) = lit "red"))
  /\ comparison_status_style (status_label r) <> lit "dim"
  /\ panel_border_style (status_label r) <> lit "grey".
Proof.
  unfold comparison_status_style, panel_border_style.
  destruct (status_label_cases r)
    as [[Hs Hl] | [[Hs [Hr Hl]] | [Hs [Hr [Hl | Hl]]]]]; rewrite Hs.
  - rewrite Hl. repeat split; try discriminate.
  - rewrite Hr, Hl. repeat split; try discriminate.
  - rewrite Hr, Hl. repeat split; try discriminate.
    intros _ _. left. now repeat split.
  - rewrite Hr, Hl. repeat split; try discriminate.
    intros _ _. right. now repeat split.
Qed.

Lemma status_style_of_result_witness :
  comparison_status_style (status_label r_retried) = lit "status.success"
  /\ comparison_status_style (status_label r_limited_failure)
     = lit "status.rate_limited".
Proof.
  split.
  - apply (proj1 (status_style_of_result r_retried)). reflexivity.
  - apply (proj1 (proj2 (status_style_of_result r_limited_failure)));
      reflexivity.
Defined.

(** X21.  The output cell of the comparison table shows, for a result
    with output, the summary text of the result: the output, cut to 500
    characters and three dots when it is longer.  For a result without
    output it shows the first 200 characters of the error text, and a cut
    there is not marked.  The cell is never longer than 503 characters.
    The panel of a single result shows the whole output, else the whole
    error text, else a fixed notice, and is never empty. *)
Theorem output_text_of_result (r : AgentResult) :
  (output r <> [] -> comparison_output_text r = truncated_output r)
  /\ (output r = [] ->
      comparison_output_text r = firstn 200 (stderr r)
      /\ (List.length (comparison_output_text r) <= 200)%nat)
  /\ (List.length (comparison_output_text r) <= 503)%nat
  /\ panel_body r <> []
  /\ (output r <> [] -> panel_body r = output r).
Proof.
  unfold comparison_output_text, truncated_output, panel_body.
  destruct (output r) as [|c out] eqn:Eo.
  - cbn [List.length]. cbn [Nat.ltb Nat.leb].
    assert (H : (List.length (firstn 200 (stderr r)) <= 200)%nat)
      by apply firstn_le_length.
    split; [intros E; now elim E |]. split; [now split |].
    split; [lia |]. split; [| intros E; now elim E].
    destruct (stderr r); discriminate.
  - split.
    + intros _.
      destruct (Nat.ltb_spec 500 (List.length (c :: out))) as [H | H].
      * replace (List.length (c :: out) <=? 500)%nat with false
          by (symmetry; apply Nat.leb_gt; exact H).
        reflexivity.
      * replace (List.length (c :: out) <=? 500)%nat with true
          by (symmetry; apply Nat.leb_le; exact H).
        apply firstn_all2. exact H.
    + split; [discriminate |].
      split; [| split; [discriminate | reflexivity]].
      assert (H : (List.length (firstn 500 (c :: out)) <= 500)%nat)
        by apply firstn_le_length.
      destruct (500 <? List.length (c :: out))%nat;
        [rewrite length_app; simpl List.length at 2 |]; lia.
Qed.

Lemma output_text_of_result_witness :
  comparison_output_text r_long_output = truncated_output r_long_output
  /\ List.length (comparison_output_text r_long_stderr) = 200%nat.
Proof.
  split.
  - apply (proj1 (output_text_of_result r_long_output)). discriminate.
  - rewrite (proj1 (proj1 (proj2 (output_text_of_result r_long_stderr))
                      eq_refl)).
    reflexivity.
Defined.

(** ** The outcome of the analysis *)



(** ** The synthesis prompt *)





(** ** The detection and the choice of the primary *)


Lemma detect_step (env : Detector.Env) (k : pystr)
    (info : Detector.KnownAgent) (acc : dict Detector.DetectedAgent) :
  fold_left
    (fun results agent =>
       match agent with
       | Return a => dict_set results (Detector.name a) a
       | Raise _ => results
       end)
    match Detector.which env (Detector.binary info) with
    | Some ((_ :: _) as path) => [Detector._detect_one env k path info]
    | _ => []
    end acc
  = match detected_as env k info with
    | Some a => dict_set acc k a
    | None => acc
    end.
Proof.
  unfold detected_as, Detector._detect_one.
  destruct (Detector.which env (Detector.binary info)) as [[|c p]|];
    try reflexivity.
  now destruct (Detector._get_version env info).
Qed.

Lemma detect_lookup_from (env : Detector.Env)
    (known : dict Detector.KnownAgent) :
  forall (acc : dict Detector.DetectedAgent) (name : pystr),
  NoDup (keys known) ->
  dict_get
    (fold_left
       (fun results agent =>
          match agent with
          | Return a => dict_set results (Detector.name a) a
          | Raise _ => results
          end)
       (flat_map
          (fun item =>
             match Detector.which env (Detector.binary (snd item)) with
             | Some ((_ :: _) as path) =>
                 [Detector._detect_one env (fst item) path (snd item)]
             | _ => []
             end) known) acc) name
  = match dict_get known name with
    | Some info =>
        match detected_as env name info with
        | Some a => Some a
        | None => dict_get acc name
        end
    | None => dict_get acc name
    end.
Proof.
  induction known as [|[k info] rest IH]; intros acc name Hnd.
  - reflexivity.
  - inversion Hnd as [|k' ks Hnotin Hrest]; subst.
    cbn [flat_map fst snd]. rewrite fold_left_app, (IH _ name Hrest).
    rewrite detect_step. cbn [dict_get].
    assert (Hself : pystr_eqb k k = true) by now apply pystr_eqb_eq.
    destruct (pystr_eqb k name) eqn:E.
    + apply pystr_eqb_eq in E. subst name.
      assert (Hn : dict_get rest k = None).
      { destruct (dict_get rest k) eqn:G; [| reflexivity].
        elim Hnotin. apply dict_get_in_keys. congruence. }
      rewrite Hn. destruct (detected_as env k info); [| reflexivity].
      now rewrite dict_get_set, Hself.
    + assert (Hacc : dict_get
                       match detected_as env k info with
                       | Some a => dict_set acc k a
                       | None => acc
                       end name = dict_get acc name).
      { destruct (detected_as env k info); [| reflexivity].
        now rewrite dict_get_set, E. }
      rewrite Hacc. reflexivity.
Qed.

Lemma detect_keys_from (env : Detector.Env)
    (known : dict Detector.KnownAgent) :
  forall acc : dict Detector.DetectedAgent,
  NoDup (keys known) ->
  (forall k, In k (keys known) -> ~ In k (keys acc)) ->
  keys
    (fold_left
       (fun results agent =>
          match agent with
          | Return a => dict_set results (Detector.name a) a
          | Raise _ => results
          end)
       (flat_map
          (fun item =>
             match Detector.which env (Detector.binary (snd item)) with
             | Some ((_ :: _) as path) =>
                 [Detector._detect_one env (fst item) path (snd item)]
             | _ => []
             end) known) acc)
  = keys acc
    ++ List.map fst
         (filter (fun item =>
                    match detected_as env (fst item) (snd item) with
                    | Some _ => true
                    | None => false
                    end) known).
Proof.
  induction known as [|[k info] rest IH]; intros acc Hnd Hdis.
  - simpl. now rewrite app_nil_r.
  - inversion Hnd as [|k' ks Hnotin Hrest]; subst.
    assert (Hk : ~ In k (keys acc)) by (apply Hdis; now left).
    assert (Hk' : dict_mem acc k = false).
    { unfold dict_mem. destruct (dict_get acc k) eqn:G; [| reflexivity].
      elim Hk. apply dict_get_in_keys. congruence. }
    cbn [flat_map fst snd filter]. rewrite fold_left_app, detect_step.
    destruct (detected_as env k info) as [a|].
    + rewrite IH; [| exact Hrest |].
      * rewrite keys_dict_set, Hk'. cbn [List.map fst].
        now rewrite <- app_assoc.
      * intros k0 Hin Hacc. rewrite keys_dict_set, Hk' in Hacc.
        apply in_app_or in Hacc as [Hacc | [<- | []]].
        -- apply (Hdis k0); [now right | exact Hacc].
        -- now apply Hnotin.
    + apply IH; [exact Hrest |]. intros k0 Hin. apply Hdis. now right.
Qed.

Lemma known_agents_nodup : NoDup (keys Detector.KNOWN_AGENTS).
Proof. repeat constructor; simpl; intuition discriminate. Qed.

Lemma known_agent_has_class (name : pystr) (info : Detector.KnownAgent) :
  dict_get Detector.KNOWN_AGENTS name = Some info ->
  dict_get ADAPTER_CLASSES name <> None /\ Detector.binary info = name.
Proof.
  unfold Detector.KNOWN_AGENTS, ADAPTER_CLASSES. cbn [dict_get].
  destruct (pystr_eqb (lit "claude") name) eqn:E1.
  { apply pystr_eqb_eq in E1. intros H. injection H as <-.
    split; [discriminate | exact E1]. }
  destruct (pystr_eqb (lit "gemini") name) eqn:E2.
  { apply pystr_eqb_eq in E2. intros H. injection H as <-.
    split; [discriminate | exact E2]. }
  destruct (pystr_eqb (lit "codex") name) eqn:E3; [| discriminate].
  apply pystr_eqb_eq in E3. intros H. injection H as <-.
  split; [discriminate | exact E3].
Qed.

Lemma detect_all_lookup (env : Detector.Env) (name : pystr) :
  dict_get (Detector.detect_all env) name
  = match dict_get Detector.KNOWN_AGENTS name with
    | Some info => detected_as env name info
    | None => None
    end.
Proof.
  unfold Detector.detect_all.
  rewrite (detect_lookup_from env Detector.KNOWN_AGENTS [] name
             known_agents_nodup).
  destruct (dict_get Detector.KNOWN_AGENTS name) as [info|]; [| reflexivity].
  now destruct (detected_as env name info).
Qed.

Lemma detect_all_keys (env : Detector.Env) :
  keys (Detector.detect_all env)
  = filter (dict_mem (Detector.detect_all env)) (keys Detector.KNOWN_AGENTS).
Proof.
  unfold Detector.detect_all at 1.
  rewrite (detect_keys_from env Detector.KNOWN_AGENTS [] known_agents_nodup);
    [| intros k _ []].
  cbn [keys app].
  assert (H : forall known : dict Detector.KnownAgent,
            (forall item, In item known ->
               dict_get Detector.KNOWN_AGENTS (fst item) = Some (snd item)) ->
            List.map fst
              (filter (fun item =>
                         match detected_as env (fst item) (snd item) with
                         | Some _ => true
                         | None => false
                         end) known)
            = filter (dict_mem (Detector.detect_all env))
                (List.map fst known)).
  { induction known as [|item rest IH]; intros Hk; [reflexivity |].
    cbn [filter List.map]. unfold dict_mem at 1.
    rewrite detect_all_lookup, (Hk item (or_introl eq_refl)).
    rewrite <- IH by (intros i Hi; apply Hk; now right).
    now destruct (detected_as env (fst item) (snd item)). }
  apply H. intros item Hin.
  repeat (destruct Hin as [<- | Hin]; [reflexivity |]). destruct Hin.
Qed.

(** X24.  [detect_all] answers for a name with the agent it detected
    exactly when the name is one of the known agents, [shutil.which]
    finds its binary at a path that is not empty, and the detection of
    its version ends without an exception it lets through; an agent whose
    version detection fails in that way is left out without an error.  A
    detected agent carries the name it stands under and the path found,
    and its name has an adapter class.  The detected names come in the
    order claude, gemini, codex. *)
Theorem detect_all_spec (env : Detector.Env) :
  (forall name,
     dict_get (Detector.detect_all env) name
     = match dict_get Detector.KNOWN_AGENTS name with
       | Some info => detected_as env name info
       | None => None
       end)
  /\ keys (Detector.detect_all env)
     = filter (dict_mem (Detector.detect_all env))
         [lit "claude"; lit "gemini"; lit "codex"]
  /\ (forall name a,
        dict_get (Detector.detect_all env) name = Some a ->
        Detector.name a = name
        /\ Detector.which env name = Some (Detector.binary_path a)
        /\ Detector.binary_path a <> []
        /\ Detector.available a = true
        /\ dict_get ADAPTER_CLASSES name <> None).
Proof.
  split; [apply detect_all_lookup | split; [apply detect_all_keys |]].
  intros name a. rewrite detect_all_lookup.
  destruct (dict_get Detector.KNOWN_AGENTS name) as [info|] eqn:Ek;
    [| discriminate].
  destruct (known_agent_has_class name info Ek) as [Hc Hb].
  unfold detected_as, Detector._detect_one. rewrite Hb.
  destruct (Detector.which env name) as [[|c p]|]; try discriminate.
  destruct (Detector._get_version env info) as [v|e]; [| discriminate].
  intros H. injection H as <-. cbn. repeat split; try discriminate.
  exact Hc.
Qed.

Lemma detect_all_spec_witness :
  exists a,
    dict_get (Detector.detect_all env_gemini_codex) (lit "gemini") = Some a
    /\ Detector.name a = lit "gemini".
Proof.
  eexists. split; [reflexivity |].
  exact (proj1 (proj2 (proj2 (detect_all_spec env_gemini_codex))
                  (lit "gemini") _ eq_refl)).
Defined.





(** ** The direct run of one agent *)




(** ** The arguments of the command line *)

Lemma split_args_spec_upto (n : nat) :
  forall (args : list pystr) (prev : pystr),
  (List.length args <= n)%nat ->
  (is_flag prev = true ->
   match args with a :: _ => is_flag a = true | [] => True end) ->
  split_args args
  = (List.map snd (filter prompt_word (combine (prev :: args) args)),
     List.map snd (filter (fun pc => negb (prompt_word pc))
                     (combine (prev :: args) args))).
Proof.
  assert (Hpw : forall p c,
            prompt_word (p, c) = negb (is_flag c) && negb (is_flag p))
    by reflexivity.
  induction n as [|n IH]; intros args prev Hlen Hprev.
  - destruct args; [reflexivity | simpl in Hlen; lia].
  - destruct args as [|a rest]; [reflexivity |].
    cbn [split_args combine filter]. rewrite !Hpw.
    destruct (is_flag a) eqn:Fa.
    + cbn [negb andb List.map snd].
      destruct rest as [|v rest']; [reflexivity |].
      destruct (is_flag v) eqn:Fv; cbn [negb].
      * rewrite (IH (v :: rest') a); [reflexivity | simpl in *; lia |].
        intros _. exact Fv.
      * rewrite (IH rest' v); [| simpl in *; lia | congruence].
        cbn [combine filter]. rewrite !Hpw, Fv, Fa. reflexivity.
    + assert (Fp : is_flag prev = false).
      { destruct (is_flag prev); [| reflexivity].
        specialize (Hprev eq_refl). cbn in Hprev. congruence. }
      rewrite Fp. cbn [negb andb List.map snd].
      rewrite (IH rest a); [reflexivity | simpl in *; lia | congruence].
Qed.

Lemma in_with_previous (p0 previous word : pystr) (l1 l2 : list pystr) :
  In (previous, word)
    (combine (p0 :: l1 ++ previous :: word :: l2)
       (l1 ++ previous :: word :: l2)).
Proof.
  revert p0. induction l1 as [|x l1 IH]; intros p0; simpl.
  - right. now left.
  - right. apply IH.
Qed.

(** X27.  For arguments that do not start with a subcommand and are not
    a single flag, [parse_args] divides the arguments in two, keeping
    their order: the prompt is made, with single spaces, of every argument
    that does not start with two dashes and does not come right after an
    argument that does; every other argument goes on to the parser.  So a
    word that follows a flag never enters the prompt, whether or not the
    flag takes a value, and no prompt is stored when no word is left. *)
Theorem parse_args_prompt (commands : list pystr) (first : pystr)
    (rest : list pystr) :
  existsb (pystr_eqb first) commands = false ->
  (rest = [] -> is_flag first = false) ->
  let args := first :: rest in
  let words := List.map snd (filter prompt_word (with_previous args)) in
  let others :=
    List.map snd (filter (fun pc => negb (prompt_word pc))
                    (with_previous args)) in
  parse_args commands args
  = (match words with [] => None | _ :: _ => Some (join (lit " ") words) end,
     others)
  /\ (List.length words + List.length others = List.length args)%nat
  /\ (forall previous word l1 l2,
        args = l1 ++ previous :: word :: l2 ->
        is_flag previous = true -> is_flag word = false ->
        In word others).
Proof.
  intros Hcmd Hone args words others.
  assert (Hsplit : split_args args = (words, others)).
  { apply (split_args_spec_upto (List.length args) args []);
      [lia | discriminate]. }
  split; [| split].
  - unfold parse_args. subst words others args. cbv beta iota.
    rewrite Hcmd.
    assert (Hshape : match first :: rest with
                     | [only] => pystr_eqb only (lit "--tui") || is_flag only
                     | _ => false
                     end = false).
    { destruct rest as [|b rest']; [| reflexivity].
      rewrite (Hone eq_refl), orb_false_r.
      destruct (pystr_eqb first (lit "--tui")) eqn:E; [| reflexivity].
      apply pystr_eqb_eq in E. rewrite E in Hone.
      specialize (Hone eq_refl). discriminate. }
    rewrite Hshape, Hsplit. reflexivity.
  - unfold words, others, with_previous.
    rewrite !length_map.
    assert (H : forall (A : Type) (f : A -> bool) (l : list A),
              (List.length (filter f l)
               + List.length (filter (fun x => negb (f x)) l)
               = List.length l)%nat).
    { intros A f l. induction l as [|x l IHl]; [reflexivity |].
      simpl. destruct (f x); simpl; lia. }
    rewrite H, length_combine. unfold args. cbn [List.length].
    apply Nat.min_r. apply Nat.le_succ_diag_r.
  - intros previous word l1 l2 E Fp Fw. unfold others, with_previous.
    apply in_map_iff. exists (previous, word). split; [reflexivity |].
    apply filter_In. split.
    + rewrite E. apply in_with_previous.
    + unfold prompt_word. cbn [fst snd]. now rewrite Fp, andb_false_r.
Qed.

Lemma parse_args_prompt_witness :
  parse_args SUBCOMMANDS [lit "--tui"; lit "hello"] = (None, [lit "--tui"; lit "hello"])
  /\ parse_args SUBCOMMANDS [lit "fix"; lit "--model"; lit "o3"; lit "the"; lit "bug"]
     = (Some (lit "fix the bug"), [lit "--model"; lit "o3"]).
Proof.
  split.
  - apply (proj1 (parse_args_prompt SUBCOMMANDS (lit "--tui") [lit "hello"]
                    eq_refl ltac:(discriminate))).
  - apply (proj1 (parse_args_prompt SUBCOMMANDS (lit "fix")
                    [lit "--model"; lit "o3"; lit "the"; lit "bug"]
                    eq_refl ltac:(discriminate))).
Defined.
